(** * Retrieval engine of the AGENTE manual assistant

    Shallow embedding of [src/embed.js] (the chunker and [ingestPDF]),
    [src/utils/vectorStore.js] (first version of the module: [load],
    [upsert], [similaritySearch], [getAvailableManuals],
    [verifyVectorStore]) and of the attribution loop of the [/chat]
    route in [src/app.js].

    Numbers of the JavaScript code are modelled as rationals [Q] with an
    explicit [NaN]; strings are Rocq strings (ASCII text). *)

From Stdlib Require Import String Ascii List Arith Lia Bool ZArith QArith.
From Stdlib Require Import Sorted Permutation Lqa Qround.
Import ListNotations.

Local Open Scope nat_scope.
Local Open Scope list_scope.

(** ** Small list and string helpers (JavaScript builtins) *)

(** [Array.prototype.slice(i, j)] for [0 <= i] and [0 <= j]. *)
Definition slice {A : Type} (l : list A) (i j : nat) : list A :=
  firstn (j - i) (skipn i l).

(** [Array.prototype.join(sep)] on an array of strings. *)
Fixpoint join (sep : string) (l : list string) : string :=
  match l with
  | [] => EmptyString
  | [x] => x
  | x :: l' => String.append x (String.append sep (join sep l'))
  end.

(** The ASCII characters matched by the regular expression class [\s]:
    tab, line feed, vertical tab, form feed, carriage return, space. *)
Definition is_ws (c : ascii) : bool :=
  let n := nat_of_ascii c in (n =? 32) || ((9 <=? n) && (n <=? 13)).

(** [txt.split(/\s+/)]: every maximal run of whitespace is a separator;
    a leading (trailing) run yields a leading (trailing) empty string, and
    the empty string splits into [[""]]. [inws] records that the previous
    character was whitespace, so a run only separates once. *)
Fixpoint split_ws_go (s : string) (cur : list ascii) (inws : bool)
  : list string :=
  match s with
  | EmptyString => [string_of_list_ascii (rev cur)]
  | String c s' =>
      if is_ws c then
        if inws then split_ws_go s' [] true
        else string_of_list_ascii (rev cur) :: split_ws_go s' [] true
      else split_ws_go s' (c :: cur) false
  end.

Definition split_ws (s : string) : list string := split_ws_go s [] false.

(** ** The chunker ([chunkText] in src/embed.js) *)

Definition CHUNK_WORDS : nat := 500.
Definition OVERLAP : nat := 50.

(** The [for (let i = 0; i < words.length; i += CHUNK_WORDS - OVERLAP)]
    loop. [fuel] bounds the number of iterations; [chunkText] passes
    [words.length], more than the loop ever runs since [i] grows by 450. *)
Fixpoint chunk_loop (words : list string) (fuel i : nat) : list string :=
  match fuel with
  | O => []
  | S f =>
      if i <? length words then
        join " " (slice words i (i + CHUNK_WORDS))
          :: chunk_loop words f (i + (CHUNK_WORDS - OVERLAP))
      else []
  end.

Definition chunkText (txt : string) : list string :=
  let words := split_ws txt in
  chunk_loop words (length words) 0.

(** The token window [[start, end)] of each block the loop pushes:
    [words.slice(i, i + CHUNK_WORDS)] covers indices [i] up to
    [min(i + CHUNK_WORDS, words.length)]. *)
Fixpoint window_loop (n fuel i : nat) : list (nat * nat) :=
  match fuel with
  | O => []
  | S f =>
      if i <? n then
        (i, Nat.min (i + CHUNK_WORDS) n)
          :: window_loop n f (i + (CHUNK_WORDS - OVERLAP))
      else []
  end.

Definition chunk_windows (n : nat) : list (nat * nat) := window_loop n n 0.

(** A text of [n] words separated by single spaces. *)
Definition words_text (n : nat) : string := join " " (repeat "w"%string n).

(** [`chunk-${n}`]: decimal rendering of a natural number. *)
Fixpoint digits_of (fuel n : nat) (acc : string) : string :=
  match fuel with
  | O => acc
  | S f =>
      let acc' := String (ascii_of_nat (48 + n mod 10)) acc in
      if n <? 10 then acc' else digits_of f (n / 10) acc'
  end.

Definition string_of_nat (n : nat) : string := digits_of (S n) n EmptyString.

(** ** JavaScript numbers

    A number is a rational or [NaN]; arithmetic propagates [NaN], and
    reading an array out of bounds gives [undefined], which arithmetic
    turns into [NaN]. *)
Inductive num : Type :=
| Fin (q : Q)
| NaN.

Definition num_add (a b : num) : num :=
  match a, b with Fin x, Fin y => Fin (x + y) | _, _ => NaN end.

Definition num_sub (a b : num) : num :=
  match a, b with Fin x, Fin y => Fin (x - y) | _, _ => NaN end.

Definition num_mul (a b : num) : num :=
  match a, b with Fin x, Fin y => Fin (x * y) | _, _ => NaN end.

(** Division; a zero denominator gives [NaN] ([0 / 0]: with the real
    square root the denominator [sqrt(na) * sqrt(nb)] is zero only when
    every product of the loop, hence the dot product, is zero). *)
Definition num_div (a b : num) : num :=
  match a, b with
  | Fin x, Fin y => if Qeq_bool y 0 then NaN else Fin (x / y)
  | _, _ => NaN
  end.

(** [a > q] for a constant [q]: every comparison with [NaN] is false. *)
Definition num_gt (a : num) (q : Q) : bool :=
  match a with Fin x => negb (Qle_bool x q) | NaN => false end.

(** [Math.sqrt] is a parameter [sqrt] of the search; [Math_sqrt] is a
    concrete one used to evaluate examples, exact on squares of
    rationals. *)
Definition num_sqrt (sqrt : Q -> Q) (a : num) : num :=
  match a with Fin x => Fin (sqrt x) | NaN => NaN end.

Definition Math_sqrt (q : Q) : Q :=
  Qmake (Z.sqrt (Qnum q)) (Z.to_pos (Z.sqrt (Zpos (Qden q)))).

(** [a[i]] on an array of numbers. *)
Definition at_ (v : list Q) (i : nat) : num :=
  match nth_error v i with Some x => Fin x | None => NaN end.

(** ** Data model of the vector store (src/utils/vectorStore.js) *)

Record manual_info : Type := mkInfo {
  filename : string;
  title : string;
  author : string;
  pages : nat;
  createdAt : string;
  path : string
}.

(** A stored chunk [{ id, text, vector }]; an absent [id] is [""]. *)
Record chunk : Type := mkChunk {
  cid : string;
  ctext : string;
  vector : list Q
}.

(** A manual [{ embeddings, info }]. *)
Record manual : Type := mkManual {
  embeddings : list chunk;
  info : manual_info
}.

(** The loaded cache [{ manuals }]: the [manuals] object as an
    association list in property (insertion) order, [None] when the
    property is absent. *)
Record cache_t : Type := mkCache {
  manuals : option (list (string * manual))
}.

(** A plain object with string keys, as the list of its own properties
    in the order [Object.keys] and [for ... in] enumerate them: the
    array-index keys first, in ascending numeric order, then the other
    keys in creation order. The key ["__proto__"], whose write sets the
    prototype instead of a property, is not modelled. *)

(** The value of a string of decimal digits. *)
Fixpoint decimal_value (s : string) (acc : Z) : option Z :=
  match s with
  | EmptyString => Some acc
  | String c s' =>
      let n := nat_of_ascii c in
      if (48 <=? n) && (n <=? 57) then
        decimal_value s' (acc * 10 + Z.of_nat (n - 48))%Z
      else None
  end.

(** An array index: the canonical decimal form of an integer in
    [[0, 2^32 - 2]]. *)
Definition array_index (k : string) : option Z :=
  match k with
  | EmptyString => None
  | String c s' =>
      if (c =? "0")%char && negb (String.eqb s' "") then None
      else
        match decimal_value k 0 with
        | Some n => if (n <? 4294967295)%Z then Some n else None
        | None => None
        end
  end.

(** Property read [obj[k]]. *)
Fixpoint assoc_get {V : Type} (k : string) (l : list (string * V)) : option V :=
  match l with
  | [] => None
  | (k', v) :: l' => if String.eqb k k' then Some v else assoc_get k l'
  end.

(** A write [obj[k] = v] to an existing key keeps its position. *)
Fixpoint assoc_replace {V : Type} (k : string) (v : V) (l : list (string * V))
  : list (string * V) :=
  match l with
  | [] => []
  | (k', v') :: l' =>
      if String.eqb k k' then (k, v) :: l' else (k', v') :: assoc_replace k v l'
  end.

(** A new array-index key [k] of value [n] goes after the array-index
    keys below [n]. *)
Fixpoint insert_index {V : Type} (n : Z) (k : string) (v : V)
    (l : list (string * V)) : list (string * V) :=
  match l with
  | [] => [(k, v)]
  | (k', v') :: l' =>
      match array_index k' with
      | Some n' => if (n' <? n)%Z then (k', v') :: insert_index n k v l'
                   else (k, v) :: l
      | None => (k, v) :: l
      end
  end.

(** A new key: placed among the array indices, or last. *)
Definition add_key {V : Type} (k : string) (v : V) (l : list (string * V))
  : list (string * V) :=
  match array_index k with
  | Some n => insert_index n k v l
  | None => l ++ [(k, v)]
  end.

(** Property write [obj[k] = v]. *)
Definition assoc_set {V : Type} (k : string) (v : V) (l : list (string * V))
  : list (string * V) :=
  if existsb (String.eqb k) (map fst l) then assoc_replace k v l else add_key k v l.

(** [upsert(embeddings, manualId, manualInfo)] on the loaded cache: an
    absent [manuals] object is created, then the manual is written under
    [manualId]. [save] is modelled in [ingestPDF]. *)
Definition upsert (embs : list chunk) (manualId : string)
    (manualInfo : manual_info) (c : cache_t) : cache_t :=
  let ms := match manuals c with None => [] | Some ms => ms end in
  mkCache (Some (assoc_set manualId (mkManual embs manualInfo) ms)).

(** ** Similarity search ([similaritySearch]) *)

(** The [cosine] closure: the loop runs over [a.length]; [b[i]] beyond
    the end of [b] is [undefined], which makes [dot] and [nb] [NaN]. *)
Definition cosine_step (a b : list Q) (acc : num * num * num) (i : nat)
  : num * num * num :=
  let '(dot, na, nb) := acc in
  (num_add dot (num_mul (at_ a i) (at_ b i)),
   num_add na (num_mul (at_ a i) (at_ a i)),
   num_add nb (num_mul (at_ b i) (at_ b i))).

Definition cosine (sqrt : Q -> Q) (a b : list Q) : num :=
  let '(dot, na, nb) :=
    fold_left (cosine_step a b) (seq 0 (length a)) (Fin 0, Fin 0, Fin 0) in
  num_div dot (num_mul (num_sqrt sqrt na) (num_sqrt sqrt nb)).

(** A search result [{ text, score, manualId, manualInfo, chunkId }]. *)
Record result : Type := mkResult {
  rtext : string;
  score : num;
  manualId : string;
  manualInfo : manual_info;
  chunkId : string
}.

(** [obj.id || `chunk-${embeddings.indexOf(obj)}`]; the chunks of a
    manual are distinct objects, so [indexOf] is the position [idx]. *)
Definition chunk_id (c : chunk) (idx : nat) : string :=
  if String.eqb (cid c) "" then String.append "chunk-" (string_of_nat idx)
  else cid c.

(** The inner [for (const obj of embeddings)] loop of one manual; [keep]
    is the condition under which a result is pushed. *)
Fixpoint scan_chunks (keep : num -> bool) (sqrt : Q -> Q) (queryVec : list Q)
    (mid : string) (mi : manual_info) (cs : list chunk) (idx : nat)
  : list result :=
  match cs with
  | [] => []
  | c :: cs' =>
      let s := cosine sqrt queryVec (vector c) in
      let rest := scan_chunks keep sqrt queryVec mid mi cs' (S idx) in
      if keep s then mkResult (ctext c) s mid mi (chunk_id c idx) :: rest
      else rest
  end.

(** The outer [for (const manualId in cache.manuals)] loop. *)
Definition scan (keep : num -> bool) (sqrt : Q -> Q) (queryVec : list Q)
    (ms : list (string * manual)) : list result :=
  flat_map (fun '(mid, m) => scan_chunks keep sqrt queryVec mid (info m)
                                (embeddings m) 0) ms.

(** The relevance test [score > 0.4]. *)
Definition above_threshold (s : num) : bool := num_gt s (2 # 5).

Definition keep_all (s : num) : bool := true.

(** [Array.prototype.sort(comparefn)]: the comparator's value is read as
    a number, [NaN] counting as [+0]; the sort is stable (ECMAScript
    2019), modelled as insertion sort: an element is placed before the
    first element that the comparator puts after it. *)
Definition sort_after (v : num) : bool :=
  match v with Fin x => negb (Qle_bool x 0) | NaN => false end.

Fixpoint insert_by {A : Type} (comparefn : A -> A -> num) (x : A) (l : list A)
  : list A :=
  match l with
  | [] => [x]
  | e :: l' =>
      if sort_after (comparefn e x) then x :: e :: l'
      else e :: insert_by comparefn x l'
  end.

Definition js_sort {A : Type} (comparefn : A -> A -> num) (l : list A) : list A :=
  fold_left (fun acc x => insert_by comparefn x acc) l [].

(** [Array.prototype.slice(0, k)] for an integer [k]: a negative end
    counts from the end of the array. *)
Definition slice0 {A : Type} (l : list A) (k : Z) : list A :=
  if (k <? 0)%Z then firstn (length l - Z.to_nat (- k)) l
  else firstn (Z.to_nat k) l.

(** The comparator [(a, b) => b.score - a.score]. *)
Definition by_score_desc (a b : result) : num := num_sub (score b) (score a).

(** The candidates [allResults] after both loops: the chunks above the
    threshold, or, if there is none, every chunk. *)
Definition candidates (sqrt : Q -> Q) (queryVec : list Q)
    (ms : list (string * manual)) : list result :=
  match scan above_threshold sqrt queryVec ms with
  | [] => scan keep_all sqrt queryVec ms
  | allResults => allResults
  end.

Definition similaritySearch (sqrt : Q -> Q) (queryVec : list Q) (topK : Z)
    (c : cache_t) : list result :=
  match manuals c with
  | None => []
  | Some [] => []
  | Some ms => slice0 (js_sort by_score_desc (candidates sqrt queryVec ms)) topK
  end.

(** ** Catalog and flat view *)

Record catalog_entry : Type := mkEntry {
  entry_id : string;
  entry_info : manual_info;
  entry_chunks : nat
}.

Definition getAvailableManuals (c : cache_t) : list catalog_entry :=
  match manuals c with
  | None => []
  | Some ms =>
      map (fun '(mid, m) => mkEntry mid (info m) (length (embeddings m))) ms
  end.

Definition verifyVectorStore (c : cache_t) : list chunk :=
  match manuals c with
  | None => []
  | Some ms => fold_left (fun acc '(mid, m) => acc ++ embeddings m) ms []
  end.

(** ** Ingestion ([ingestPDF] in src/embed.js)

    The extracted [text], the [manualId] (an md5 of the file name and the
    time) and the [manualInfo] built from the PDF metadata are inputs.
    [embed] is the embeddings call ([None]: it throws); [copy_ok] and
    [save_ok] say whether the copy of the PDF and [save()] succeed. *)
Record ingest_result : Type := mkIngest {
  res_id : string;
  res_chunks : nat;
  res_info : manual_info
}.

(** The stored [vector] is [embed] of [const { data: [embed] }], the
    first element of the response: the object [{ embedding, index,
    object }], not its array of floats. It has no index properties, so
    every read [vector[i]] made by [cosine] gives [undefined], as on an
    empty array; the floats are never read. *)
Definition stored_vector (response : list Q) : list Q := [].

(** The loop over [pieces.entries()]; [embed piece] is the embedding in
    the response of the call ([None]: the call throws). *)
Fixpoint embed_all (embed : string -> option (list Q)) (pieces : list string)
    (idx : nat) : option (list chunk) :=
  match pieces with
  | [] => Some []
  | piece :: ps =>
      match embed piece with
      | None => None
      | Some v =>
          match embed_all embed ps (S idx) with
          | None => None
          | Some rest =>
              Some (mkChunk (String.append "chunk-" (string_of_nat idx)) piece
                      (stored_vector v) :: rest)
          end
      end
  end.

(** The result is [None] when the function throws; the cache is returned
    as it is afterwards ([upsert] mutates it before [save()] may fail). *)
Definition ingestPDF (embed : string -> option (list Q)) (text : string)
    (manualId : string) (manualInfo : manual_info) (copy_ok save_ok : bool)
    (c : cache_t) : option ingest_result * cache_t :=
  let pieces := chunkText text in
  match embed_all embed pieces 0 with
  | None => (None, c)
  | Some vectors =>
      if copy_ok then
        let c' := upsert vectors manualId manualInfo c in
        if save_ok then (Some (mkIngest manualId (length pieces) manualInfo), c')
        else (None, c')
      else (None, c)
  end.

(** ** Attribution (the [/chat] route of src/app.js)

    [manualCounts] is a plain object, [topManual] and [topCount] are
    updated when a count becomes strictly greater than [topCount]. *)
Definition attribution_step (st : list (string * nat) * option string * nat)
    (mid : string) : list (string * nat) * option string * nat :=
  let '(manualCounts, topManual, topCount) := st in
  let cnt := (match assoc_get mid manualCounts with
             | Some n => n | None => 0 end + 1)%nat in
  let manualCounts' := assoc_set mid cnt manualCounts in
  if topCount <? cnt then (manualCounts', Some mid, cnt)
  else (manualCounts', topManual, topCount).

Definition topManual_id (ids : list string) : option string :=
  let '(_, top, _) := fold_left attribution_step ids ([], None, 0) in top.

Definition mostRelevant (contextResults : list result) : option string :=
  topManual_id (map manualId contextResults).

(** Number of occurrences of [k] in [l]. *)
Definition count_id (k : string) (l : list string) : nat :=
  length (filter (String.eqb k) l).

(** ** Loading the cache ([load])

    The cache is a JSON value, [null] before the first load. *)
Local Set Warnings "-register-all".
Inductive json : Type :=
| JNull
| JBool (b : bool)
| JNum (q : Q)
| JStr (s : string)
| JArr (l : list json)
| JObj (l : list (string * json)).

(** JavaScript truthiness of a JSON value ([if (cache)]). *)
Definition truthy (v : json) : bool :=
  match v with
  | JNull => false
  | JBool b => b
  | JNum q => negb (Qeq_bool q 0)
  | JStr s => negb (String.eqb s "")
  | JArr _ | JObj _ => true
  end.

(** [{ manuals: {} }] *)
Definition empty_cache : json := JObj [("manuals"%string, JObj [])].

(** [load()] with [JSON.parse] as the parameter [parse] ([None]: it
    throws). [file] is the file's content, [None] when [readFile] throws
    (absent or unreadable file). The result is the new cache, which is
    also the returned value, and whether the file was read. *)
Definition load (parse : string -> option json) (file : option string)
    (cache : json) : json * bool :=
  if truthy cache then (cache, false)
  else
    match file with
    | None => (empty_cache, true)
    | Some s =>
        match parse s with
        | Some v => (v, true)
        | None => (empty_cache, true)
        end
    end.

(** *** A JSON parser, to evaluate [load] on concrete files

    [JSON.parse] on ASCII text: literals, numbers, strings, arrays and
    objects (a repeated key keeps its first position and its last value).
    A [\u] escape is outside this ASCII model and is refused. *)
Definition json_ws (c : ascii) : bool :=
  let n := nat_of_ascii c in (n =? 32) || (n =? 9) || (n =? 10) || (n =? 13).

Fixpoint skip_ws (s : list ascii) : list ascii :=
  match s with
  | c :: s' => if json_ws c then skip_ws s' else s
  | [] => []
  end.

Definition is_digit (c : ascii) : bool :=
  let n := nat_of_ascii c in (48 <=? n) && (n <=? 57).

Definition digit_val (c : ascii) : Z := Z.of_nat (nat_of_ascii c - 48).

(** Digits: the value read, how many digits, and the rest. *)
Fixpoint read_digits (s : list ascii) (acc : Z) (k : nat)
  : Z * nat * list ascii :=
  match s with
  | c :: s' =>
      if is_digit c then read_digits s' (acc * 10 + digit_val c)%Z (S k)
      else (acc, k, s)
  | [] => (acc, k, s)
  end.

Definition parse_number (s : list ascii) : option (Q * list ascii) :=
  let '(neg, s1) := match s with
                    | "-"%char :: r => (true, r)
                    | _ => (false, s)
                    end in
  let int_part :=
    match s1 with
    | "0"%char :: r => Some (0%Z, r)
    | c :: _ => if is_digit c then
                  let '(v, _, r) := read_digits s1 0%Z 0 in Some (v, r)
                else None
    | [] => None
    end in
  match int_part with
  | None => None
  | Some (iv, s2) =>
      let frac :=
        match s2 with
        | "."%char :: r =>
            let '(fv, k, r') := read_digits r 0%Z 0 in
            if k =? 0 then None
            else Some ((Qmake fv 1 / inject_Z (Z.pow 10 (Z.of_nat k)))%Q, r')
        | _ => Some (0%Q, s2)
        end in
      match frac with
      | None => None
      | Some (fq, s3) =>
          let ex :=
            match s3 with
            | e :: r =>
                if (e =? "e")%char || (e =? "E")%char then
                  let '(eneg, r1) := match r with
                                     | "-"%char :: r1 => (true, r1)
                                     | "+"%char :: r1 => (false, r1)
                                     | _ => (false, r)
                                     end in
                  let '(ev, k, r2) := read_digits r1 0%Z 0 in
                  if k =? 0 then None
                  else Some (if eneg then (- ev)%Z else ev, r2)
                else Some (0%Z, s3)
            | [] => Some (0%Z, s3)
            end in
          match ex with
          | None => None
          | Some (e, s4) =>
              let m := (inject_Z iv + fq)%Q in
              let v := (m * Qpower (inject_Z 10) e)%Q in
              Some ((if neg then - v else v)%Q, s4)
          end
      end
  end.

Definition escape (e : ascii) : option ascii :=
  match nat_of_ascii e with
  | 34 => Some e | 92 => Some e | 47 => Some e
  | 98 => Some (ascii_of_nat 8) | 102 => Some (ascii_of_nat 12)
  | 110 => Some (ascii_of_nat 10) | 114 => Some (ascii_of_nat 13)
  | 116 => Some (ascii_of_nat 9)
  | _ => None
  end.

(** The characters of a string literal after its opening quote. *)
Fixpoint parse_chars (s : list ascii) (acc : list ascii)
  : option (string * list ascii) :=
  match s with
  | [] => None
  | c :: r =>
      if (c =? "034")%char then Some (string_of_list_ascii (rev acc), r)
      else if (c =? "\")%char then
        match r with
        | e :: r' =>
            match escape e with
            | Some d => parse_chars r' (d :: acc)
            | None => None
            end
        | [] => None
        end
      else if nat_of_ascii c <? 32 then None
      else parse_chars r (c :: acc)
  end.

(** Values, array elements and object members. [fuel] bounds the depth of
    the recursion; [JSON_parse] gives more than the text can use, since
    every nested call consumes at least one character. *)
Fixpoint parse_value (fuel : nat) (s : list ascii) : option (json * list ascii) :=
  match fuel with
  | O => None
  | S f =>
      match skip_ws s with
      | "n"%char :: "u"%char :: "l"%char :: "l"%char :: r => Some (JNull, r)
      | "t"%char :: "r"%char :: "u"%char :: "e"%char :: r => Some (JBool true, r)
      | "f"%char :: "a"%char :: "l"%char :: "s"%char :: "e"%char :: r =>
          Some (JBool false, r)
      | "034"%char :: r =>
          match parse_chars r [] with
          | Some (str, r') => Some (JStr str, r')
          | None => None
          end
      | "["%char :: r =>
          match skip_ws r with
          | "]"%char :: r' => Some (JArr [], r')
          | _ => parse_elems f r []
          end
      | "{"%char :: r =>
          match skip_ws r with
          | "}"%char :: r' => Some (JObj [], r')
          | _ => parse_members f r []
          end
      | s' =>
          match parse_number s' with
          | Some (q, r) => Some (JNum q, r)
          | None => None
          end
      end
  end
with parse_elems (fuel : nat) (s : list ascii) (acc : list json)
  : option (json * list ascii) :=
  match fuel with
  | O => None
  | S f =>
      match parse_value f s with
      | None => None
      | Some (v, r) =>
          match skip_ws r with
          | ","%char :: r' => parse_elems f r' (v :: acc)
          | "]"%char :: r' => Some (JArr (rev (v :: acc)), r')
          | _ => None
          end
      end
  end
with parse_members (fuel : nat) (s : list ascii) (acc : list (string * json))
  : option (json * list ascii) :=
  match fuel with
  | O => None
  | S f =>
      match skip_ws s with
      | "034"%char :: r =>
          match parse_chars r [] with
          | None => None
          | Some (key, r1) =>
              match skip_ws r1 with
              | ":"%char :: r2 =>
                  match parse_value f r2 with
                  | None => None
                  | Some (v, r3) =>
                      let acc' := assoc_set key v acc in
                      match skip_ws r3 with
                      | ","%char :: r4 => parse_members f r4 acc'
                      | "}"%char :: r4 => Some (JObj acc', r4)
                      | _ => None
                      end
                  end
              | _ => None
              end
          end
      | _ => None
      end
  end.

(** [JSON.parse(text)]: one value, surrounded by whitespace only. *)
Definition JSON_parse (text : string) : option json :=
  let l := list_ascii_of_string text in
  match parse_value (2 * length l + 2) l with
  | Some (v, r) => match skip_ws r with [] => Some v | _ => None end
  | None => None
  end.

(** ** Observations used by the properties *)

(** [cache.manuals[k]] on the loaded cache. *)
Definition lookup_manual (c : cache_t) (k : string) : option manual :=
  match manuals c with None => None | Some ms => assoc_get k ms end.

(** The JavaScript comparison [a >= b] on scores: false when one of them
    is [NaN]. *)
Definition score_ge (a b : num) : Prop :=
  match a, b with Fin x, Fin y => (y <= x)%Q | _, _ => False end.

(** A result list in descending order of score. *)
Definition sorted_desc (l : list result) : Prop :=
  Sorted (fun r1 r2 => score_ge (score r1) (score r2)) l.

(** The score equals the rational [q]. *)
Definition score_is (q : Q) (r : result) : bool :=
  match score r with Fin x => Qeq_bool x q | NaN => false end.

(** The manuals of the cache, none when [cache.manuals] is absent. *)
Definition manual_list (c : cache_t) : list (string * manual) :=
  match manuals c with None => [] | Some ms => ms end.

(** The invariant of the attribution loop after the prefix [p]: the
    counts are right, [topCount] is the largest count, and [topManual]
    reaches it no later than any other id. *)
Definition attr_inv (p : list string)
    (st : list (string * nat) * option string * nat) : Prop :=
  let '(manualCounts, topManual, topCount) := st in
  (forall id, match assoc_get id manualCounts with Some n => n | None => 0 end
              = count_id id p) /\
  (forall id, count_id id p <= topCount) /\
  (p = [] -> topCount = 0) /\
  (p <> [] -> exists t, topManual = Some t /\ count_id t p = topCount) /\
  (forall q s id, p = q ++ s -> 0 < topCount -> count_id id q = topCount ->
     exists t, topManual = Some t /\ count_id t q = topCount).

(** ** Chunk metadata ([getChunkMetadata], src/utils/vectorStore.js) *)

(** [text.substring(0, 100) + "..."] *)
Definition preview (text : string) : string :=
  String.append (substring 0 100 text) "...".

(** The object [{ id, text, manualId, manualInfo }] it returns. *)
Record chunk_meta : Type := mkMeta {
  meta_id : string;
  meta_text : string;
  meta_manualId : string;
  meta_manualInfo : manual_info
}.

(** [getChunkMetadata(manualId, chunkId)], [null] being [None]. A stored
    manual is an object, so [!cache.manuals[manualId]] holds only for an
    absent id; [find] returns the first chunk whose [id] is [chunkId].
    A chunk without [id] is stored with [cid] [""], so the model and
    [emb.id === chunkId] differ for [chunkId = ""] only: [undefined] is
    not [""]. *)
Definition getChunkMetadata (c : cache_t) (manualId chunkId : string)
  : option chunk_meta :=
  match lookup_manual c manualId with
  | None => None
  | Some m =>
      match find (fun emb => String.eqb (cid emb) chunkId) (embeddings m) with
      | None => None
      | Some ch => Some (mkMeta (cid ch) (preview (ctext ch)) manualId (info m))
      end
  end.

(** ** Second version of [similaritySearch] (src/utils/vectorStore.js,
    lines 240-277): every chunk is a candidate, results carry no
    [chunkId]. *)
Record result2 : Type := mkResult2 {
  text2 : string;
  score2 : num;
  manualId2 : string;
  manualInfo2 : manual_info
}.

(** The two nested loops filling [allResults]. *)
Definition scan2 (sqrt : Q -> Q) (queryVec : list Q)
    (ms : list (string * manual)) : list result2 :=
  flat_map (fun '(mid, m) =>
              map (fun obj => mkResult2 (ctext obj)
                                (cosine sqrt queryVec (vector obj)) mid (info m))
                  (embeddings m)) ms.

Definition by_score_desc2 (a b : result2) : num := num_sub (score2 b) (score2 a).

Definition similaritySearch_v2 (sqrt : Q -> Q) (queryVec : list Q) (topK : Z)
    (c : cache_t) : list result2 :=
  match manuals c with
  | None => []
  | Some [] => []
  | Some ms => slice0 (js_sort by_score_desc2 (scan2 sqrt queryVec ms)) topK
  end.

(** ** Third version of the module (src/utils/vectorStore.js, lines
    319-442): the cache is a single array of chunks. *)

(** [upsert(embeddings)]: the cache is overwritten before [save()], so a
    failing [save()] leaves it overwritten too. *)
Definition upsert_v3 (embs : list chunk) (cache : list chunk) : list chunk := embs.

Record scored3 : Type := mkScored3 {
  text3 : string;
  score3 : num
}.

Definition by_score_desc3 (a b : scored3) : num := num_sub (score3 b) (score3 a).

Definition similaritySearch_v3 (sqrt : Q -> Q) (queryVec : list Q) (topK : Z)
    (cache : list chunk) : list string :=
  match cache with
  | [] => []
  | _ =>
      let scored := map (fun obj => mkScored3 (ctext obj)
                                      (cosine sqrt queryVec (vector obj))) cache in
      map text3 (slice0 (js_sort by_score_desc3 scored) topK)
  end.

(** [clearVectorStore()]: the returned flag and the new cache; the cache
    is emptied before [save()], which decides the flag. *)
Definition clearVectorStore (save_ok : bool) (cache : list chunk)
  : bool * list chunk :=
  (save_ok, []).

(** [Math.round(x)]: the nearest integer, halves rounded up. *)
Definition Math_round (x : Q) : Z := Qfloor (x + (1 # 2)).

Record stats : Type := mkStats {
  totalChunks : nat;
  averageChunkLength : Z;
  totalTokensEstimated : Z;
  firstChunkPreview : string;
  lastUpdated : option string
}.

(** [getVectorStoreStats()]; [mtime] is the ISO modification time of the
    file, [None] when [fs.stat] throws. *)
Definition getVectorStoreStats (cache : list chunk) (mtime : option string)
  : stats :=
  let n := length cache in
  let firstChunkPreview :=
    match cache with [] => EmptyString | c0 :: _ => preview (ctext c0) end in
  if 0 <? n then
    let totalLength :=
      fold_left (fun acc ch => acc + String.length (ctext ch)) cache 0 in
    mkStats n
      (Math_round (inject_Z (Z.of_nat totalLength) / inject_Z (Z.of_nat n))%Q)
      (Math_round (inject_Z (Z.of_nat totalLength) / 4)%Q)
      firstChunkPreview mtime
  else mkStats n 0%Z 0%Z firstChunkPreview mtime.

(** [ingestPDF(pathPdf)] of the earlier embed.js (src/unnamed/part_000,
    lines 17-58), which writes through the third version's [upsert]: the
    number of chunks, or [None] when it throws, and the new cache. *)
Definition ingestPDF_v0 (embed : string -> option (list Q)) (text : string)
    (save_ok : bool) (cache : list chunk) : option nat * list chunk :=
  let pieces := chunkText text in
  match embed_all embed pieces 0 with
  | None => (None, cache)
  | Some vectors =>
      (if save_ok then Some (length pieces) else None, upsert_v3 vectors cache)
  end.

(** ** The rest of the [/chat] route (src/app.js) *)

(** [topManual = { id, info, chunkIds }]. *)
Record top_manual : Type := mkTop {
  top_id : string;
  top_info : manual_info;
  chunkIds : list string
}.

(** [r.chunkId || 'sin-id'] *)
Definition chunk_id_or (r : result) : string :=
  if String.eqb (chunkId r) "" then "sin-id" else chunkId r.

(** One iteration of the attribution loop, building the [topManual]
    object. *)
Definition chat_step (contextResults : list result)
    (st : list (string * nat) * option top_manual * nat) (result0 : result)
  : list (string * nat) * option top_manual * nat :=
  let '(manualCounts, topManual, topCount) := st in
  let mid := manualId result0 in
  let cnt := (match assoc_get mid manualCounts with
             | Some n => n | None => 0 end + 1)%nat in
  let manualCounts' := assoc_set mid cnt manualCounts in
  if topCount <? cnt then
    (manualCounts',
     Some (mkTop mid (manualInfo result0)
             (map chunk_id_or
                (filter (fun r => String.eqb (manualId r) mid) contextResults))),
     cnt)
  else (manualCounts', topManual, topCount).

Definition newline : string := String "010" EmptyString.

(** ["\n---\n"] *)
Definition context_sep : string := String.append newline (String.append "---" newline).

(** What the route does with the search results: the early answer when
    there is none, otherwise the context passed to the model and the
    [topManual] found by the loop. *)
Inductive chat_outcome : Type :=
  | NoResults
  | WithContext (context : string) (topManual : option top_manual).

Definition chat_retrieve (contextResults : list result) : chat_outcome :=
  match contextResults with
  | [] => NoResults
  | _ =>
      let context := join context_sep (map rtext contextResults) in
      let '(_, topManual, _) :=
        fold_left (chat_step contextResults) contextResults ([], None, 0) in
      WithContext context topManual
  end.

(** The [/chat] route up to the call to the model. [message_blank] is
    [!message?.trim()]; [manualesCargados] is the module's flag, which
    [verificarVectorStore] sets when [verifyVectorStore] returns a chunk;
    [queryVec] is the embedding of the message. The result is the flag
    afterwards and the reply. *)
Inductive chat_reply : Type :=
| EmptyMessage
| NotLoaded
| Retrieved (outcome : chat_outcome).

Definition chat_route (message_blank manualesCargados : bool) (sqrt : Q -> Q)
    (queryVec : list Q) (c : cache_t) : bool * chat_reply :=
  if message_blank then (manualesCargados, EmptyMessage)
  else
    let verificado :=
      if manualesCargados then true else 0 <? length (verifyVectorStore c) in
    if verificado then
      (true, Retrieved (chat_retrieve (similaritySearch sqrt queryVec 4 c)))
    else (false, NotLoaded).

(** [s.includes(t)] *)
Fixpoint includes (s t : string) : bool :=
  match s with
  | EmptyString => prefix t s
  | String _ s' => prefix t s || includes s' t
  end.

(** [s.split(sep)] for a one-character separator. *)
Fixpoint split_char_go (sep : ascii) (s : string) (cur : list ascii)
  : list string :=
  match s with
  | EmptyString => [string_of_list_ascii (rev cur)]
  | String c s' =>
      if (c =? sep)%char then string_of_list_ascii (rev cur) :: split_char_go sep s' []
      else split_char_go sep s' (c :: cur)
  end.

Definition split_char (sep : ascii) (s : string) : list string :=
  split_char_go sep s [].

(** [path.basename(p)] (POSIX): the last segment after trailing slashes
    are removed. *)
Definition basename (p : string) : string :=
  last (filter (fun seg => negb (String.eqb seg "")) (split_char "/" p)) EmptyString.

(** [topManual.info.isRemote ? topManual.info.path
    : `/manuals/${path.basename(topManual.info.path)}`]; [isRemote] is
    the [isRemote] property of the info ([true] for the infos written by
    [ingestRemotePDF], absent from those of [ingestPDF]). *)
Definition manualLink (isRemote : bool) (mi : manual_info) : string :=
  if isRemote then path mi
  else String.append "/manuals/" (basename (path mi)).

(** [`https://wa.me/${whatsappNumber}?text=${encodeURIComponent(...)}`],
    with the encoded message written out. *)
Definition whatsappLink : string :=
  "https://wa.me/2657218215?text=Hola%2C%20vengo%20del%20chatbot%20de%20manuales%20y%20necesito%20ayuda%20adicional.".

(** The two links appended to the model's [answer]; [isRemote] reads
    the [isRemote] property of an info. *)
Definition finalize_answer (isRemote : manual_info -> bool) (answer : string)
    (topManual : option top_manual) : string :=
  let answer1 :=
    match topManual with
    | Some tm =>
        if includes answer "Ver manual:" then answer
        else String.append answer
               (String.append newline (String.append newline
                 (String.append "---" (String.append newline
                   (String.append "[Ver manual: "
                     (String.append (title (top_info tm))
                       (String.append "]("
                         (String.append (manualLink (isRemote (top_info tm)) (top_info tm)) ")"))))))))
    | None => answer
    end in
  if includes answer1 "WhatsApp" then answer1
  else String.append answer1
         (String.append newline (String.append newline
           (String "194" (String "191"
             (String.append "Necesitas hablar con un asesor real? [Contacta por WhatsApp]("
               (String.append whatsappLink ")")))))).

(** ** Remote manuals configuration (src/app.js, lines 43-85) *)

(** The [while (rawValue.charAt(0) !== '[' && rawValue.length > 0)] loop. *)
Fixpoint strip_to_bracket (s : string) : string :=
  match s with
  | EmptyString => EmptyString
  | String c s' => if (c =? "[")%char then s else strip_to_bracket s'
  end.

Definition manual_entry (url title : string) : json :=
  JObj [("url"%string, JStr url); ("title"%string, JStr title)].

(** The fallback list ("Plan B"). *)
Definition default_manuals : json :=
  JArr [manual_entry "https://codeo.site/manual-crm/manual-induccion.pdf"
          (String.append "Manual de Inducci" (String "195" (String "179" "n")));
        manual_entry "https://codeo.site/manual-crm/plan-de-negocios.pdf"
          "Plan de Negocios";
        manual_entry "https://codeo.site/manual-crm/manual-ventas.pdf"
          "Manual de Ventas";
        manual_entry "https://codeo.site/manual-crm/manual-del-distribuidor.pdf"
          "Manual del Distribuidor";
        manual_entry "https://codeo.site/manual-crm/manual-de-financiamiento.pdf"
          "Manual de Financiamiento";
        manual_entry "https://codeo.site/manual-crm/dossier.pdf" "Dossier"].

(** [REMOTE_MANUALS] from [process.env.REMOTE_MANUALS] ([None]: unset).
    The parsed value's [.length] is logged inside the inner [try]; it
    throws on [null] only, which also selects the fallback list. *)
Definition remote_manuals (env : option string) : json :=
  match env with
  | None => JArr []
  | Some raw =>
      if String.eqb raw "" then JArr []
      else
        match JSON_parse (strip_to_bracket raw) with
        | Some JNull => default_manuals
        | Some v => v
        | None => default_manuals
        end
  end.

(** ** File names and titles of remote manuals ([ingestRemotePDF],
    src/unnamed/part_000); an absent property reads as [""]. *)

(** [a || b] on strings. *)
Definition js_or (a b : string) : string := if String.eqb a "" then b else a.

(** [url.split("/").pop().split("?")[0] || "documento.pdf"] *)
Definition remote_filename (url : string) : string :=
  js_or (hd EmptyString (split_char "?" (last (split_char "/" url) EmptyString)))
        "documento.pdf".

(** [title || metadata.title || info.Title || filename] *)
Definition remote_title (title0 metaTitle infoTitle filename0 : string) : string :=
  js_or (js_or (js_or title0 metaTitle) infoTitle) filename0.

(** ** Views used to relate the versions and the route *)

(** A result of the first version without its [chunkId]. *)
Definition drop_chunkId (r : result) : result2 :=
  mkResult2 (rtext r) (score r) (manualId r) (manualInfo r).

(** The attribution state of the route with [topManual] reduced to its id. *)
Definition chat_proj (st : list (string * nat) * option top_manual * nat)
  : list (string * nat) * option string * nat :=
  let '(counts, top, cnt) := st in (counts, option_map top_id top, cnt).

(** What the route keeps about [topManual]: the ids of its results and an
    info that came with one of them. *)
Definition top_ok (rs : list result) (top : option top_manual) : Prop :=
  match top with
  | None => True
  | Some tm =>
      chunkIds tm =
        map chunk_id_or (filter (fun r => String.eqb (manualId r) (top_id tm)) rs) /\
      In (top_id tm, top_info tm) (map (fun r => (manualId r, manualInfo r)) rs)
  end.

(** ** Concrete inputs used by the examples below *)

Definition info0 : manual_info :=
  mkInfo "m.pdf" "m.pdf" "Desconocido" 1 "2025-01-01T00:00:00.000Z"
    "/manuals/m.pdf".

Definition chunk_of (id : string) (v : list Q) : chunk := mkChunk id id v.

(** One manual with the chunk vectors [vs]. *)
Definition store_of (vs : list (list Q)) : cache_t :=
  mkCache (Some [("m"%string,
                  mkManual (map (chunk_of "c"%string) vs) info0)]).

(** Search results attributed to the manuals [ids], in this order. *)
Definition results_of (ids : list string) : list result :=
  map (fun id => mkResult "" (Fin 1) id info0 "") ids.

(** Two manuals [A] and [B], each with one chunk. *)
Definition store_AB : cache_t :=
  mkCache (Some [("A"%string, mkManual [chunk_of "a" [1%Q]] info0);
                 ("B"%string, mkManual [chunk_of "b" [2%Q]] info0)]).

(** An embedding service that returns [[1]] for every text. *)
Definition embed_one (_ : string) : option (list Q) := Some [1%Q].

(** A placeholder result. *)
Definition result_dummy : result := mkResult "" NaN "" info0 "".

(** * Properties *)

(** ** The chunker *)

Lemma ceil_450_succ (m : nat) :
  0 < m -> (m + 449) / 450 = S ((m - 450 + 449) / 450).
Proof.
  intros Hm.
  destruct (Nat.le_gt_cases 450 m) as [Hle | Hlt].
  - replace (m + 449) with (1 * 450 + (m - 450 + 449)) by lia.
    rewrite Nat.div_add_l by lia. reflexivity.
  - replace (m - 450 + 449) with 449 by lia.
    rewrite (Nat.div_small 449 450) by lia.
    symmetry. apply (Nat.div_unique _ _ _ (m - 1)); lia.
Qed.

Lemma ceil_450_zero (m : nat) : m = 0 -> (m + 449) / 450 = 0.
Proof. intros ->. reflexivity. Qed.

(** The windows of the loop started at [i], as a closed form. *)
Lemma window_loop_seq (n fuel i : nat) :
  n - i <= fuel ->
  window_loop n fuel i =
  map (fun k => (i + 450 * k, Nat.min (i + 450 * k + CHUNK_WORDS) n))
      (seq 0 ((n - i + 449) / 450)).
Proof.
  revert i. induction fuel as [| f IH]; intros i Hf; cbn [window_loop].
  - rewrite ceil_450_zero by lia. reflexivity.
  - destruct (i <? n) eqn:Hi.
    + apply Nat.ltb_lt in Hi.
      rewrite (ceil_450_succ (n - i)) by lia. cbn [seq map].
      rewrite IH by (unfold CHUNK_WORDS, OVERLAP; lia).
      rewrite <- seq_shift, map_map.
      rewrite Nat.mul_0_r, Nat.add_0_r. f_equal.
      replace (n - i - 450 + 449) with (n - (i + (CHUNK_WORDS - OVERLAP)) + 449)
        by (unfold CHUNK_WORDS, OVERLAP; lia).
      apply map_ext. intros k.
      replace (i + 450 * S k) with (i + (CHUNK_WORDS - OVERLAP) + 450 * k)
        by (unfold CHUNK_WORDS, OVERLAP; lia).
      reflexivity.
    + apply Nat.ltb_ge in Hi.
      rewrite ceil_450_zero by lia. reflexivity.
Qed.

Lemma chunk_windows_seq (n : nat) :
  chunk_windows n =
  map (fun k => (450 * k, Nat.min (450 * k + CHUNK_WORDS) n))
      (seq 0 ((n + 449) / 450)).
Proof.
  unfold chunk_windows. rewrite window_loop_seq by lia.
  rewrite Nat.sub_0_r. reflexivity.
Qed.

Lemma slice_min {A : Type} (l : list A) (i j : nat) :
  slice l i (Nat.min j (length l)) = slice l i j.
Proof.
  unfold slice.
  destruct (Nat.min_spec j (length l)) as [[_ ->] | [Hle ->]]; [reflexivity |].
  rewrite (firstn_all2 (n := length l - i)), (firstn_all2 (n := j - i));
    [reflexivity | rewrite length_skipn; lia ..].
Qed.

(** The loop of [chunkText] pushes the words of each window, joined. *)
Lemma chunk_loop_windows (words : list string) (fuel i : nat) :
  chunk_loop words fuel i =
  map (fun w => join " " (slice words (fst w) (snd w)))
      (window_loop (length words) fuel i).
Proof.
  revert i. induction fuel as [| f IH]; intros i; simpl; [reflexivity |].
  destruct (i <? length words); [| reflexivity].
  simpl. rewrite slice_min, IH. reflexivity.
Qed.

Lemma chunkText_windows (txt : string) :
  chunkText txt =
  map (fun w => join " " (slice (split_ws txt) (fst w) (snd w)))
      (chunk_windows (length (split_ws txt))).
Proof. unfold chunkText, chunk_windows. apply chunk_loop_windows. Qed.

Lemma split_ws_go_nonempty (s : string) (cur : list ascii) (inws : bool) :
  split_ws_go s cur inws <> [].
Proof.
  revert cur inws. induction s as [| c s IH]; intros cur inws; simpl.
  - discriminate.
  - destruct (is_ws c); [destruct inws; [apply IH | discriminate] | apply IH].
Qed.

(** C3, as stated: the count [ceil(max(1, N - 50) / 450)] fails at a
    text of 460 words, which the loop cuts into two chunks (the second
    one starts at word 450). *)
Lemma chunk_count_formula_fails :
  ~ (forall txt : string,
       let N := length (split_ws txt) in
       1 <= N ->
       length (chunkText txt) = (Nat.max 1 (N - OVERLAP) + 449) / 450).
Proof.
  intros H. specialize (H (words_text 460)).
  vm_compute in H. specialize (H ltac:(lia)). discriminate H.
Qed.

(** C3 (amended): the number of chunks is [ceil(N / 450)], where [N] is
    the number of elements of [txt.split(/\s+/)] (at least one). *)
Theorem chunk_count (txt : string) :
  1 <= length (split_ws txt) /\
  length (chunkText txt) = (length (split_ws txt) + 449) / 450.
Proof.
  split.
  - unfold split_ws. destruct (split_ws_go txt [] false) eqn:E.
    + exfalso. exact (split_ws_go_nonempty _ _ _ E).
    + simpl. lia.
  - rewrite chunkText_windows, length_map, chunk_windows_seq, length_map,
      length_seq. reflexivity.
Qed.

Lemma nth_chunk_windows (n k : nat) (w : nat * nat) :
  nth_error (chunk_windows n) k = Some w ->
  k < (n + 449) / 450 /\ w = (450 * k, Nat.min (450 * k + CHUNK_WORDS) n).
Proof.
  rewrite chunk_windows_seq, nth_error_map, nth_error_seq.
  destruct (k <? (n + 449) / 450) eqn:Hk; [| discriminate].
  apply Nat.ltb_lt in Hk. simpl. intros H. inversion H. split; [exact Hk | reflexivity].
Qed.

Lemma ceil_450_bounds (n : nat) :
  450 * ((n + 449) / 450) <= n + 449 < 450 * ((n + 449) / 450) + 450.
Proof.
  pose proof (Nat.div_mod (n + 449) 450 ltac:(lia)).
  pose proof (Nat.mod_upper_bound (n + 449) 450 ltac:(lia)). lia.
Qed.

(** C4: the chunks are the joined words of the windows
    [[450 k, min(450 k + 500, N))]; every token index is in a window, and
    two consecutive windows share exactly [min(50, N - c)] tokens, where
    [c] is the start of the second one, hence [50] unless the second one
    is the last. *)
Theorem chunk_windows_cover_overlap (txt : string) :
  let words := split_ws txt in
  let N := length words in
  chunkText txt =
    map (fun w => join " " (slice words (fst w) (snd w))) (chunk_windows N) /\
  (forall j, j < N -> exists a b, In (a, b) (chunk_windows N) /\ a <= j < b) /\
  (forall k a b c d,
     nth_error (chunk_windows N) k = Some (a, b) ->
     nth_error (chunk_windows N) (S k) = Some (c, d) ->
     a < c /\ c <= b /\ b <= d /\ b - c = Nat.min OVERLAP (N - c) /\
     (nth_error (chunk_windows N) (S (S k)) <> None -> b - c = OVERLAP)).
Proof.
  intros words N. split; [| split].
  - apply chunkText_windows.
  - intros j Hj.
    pose proof (ceil_450_bounds N) as Hb.
    pose proof (Nat.div_mod j 450 ltac:(lia)) as Hd.
    pose proof (Nat.mod_upper_bound j 450 ltac:(lia)) as Hm.
    exists (450 * (j / 450)), (Nat.min (450 * (j / 450) + CHUNK_WORDS) N).
    split.
    + rewrite chunk_windows_seq.
      apply (in_map (fun k => (450 * k, Nat.min (450 * k + CHUNK_WORDS) N))).
      apply in_seq. lia.
    + unfold CHUNK_WORDS.
      destruct (Nat.min_spec (450 * (j / 450) + 500) N) as [[_ E] | [_ E]];
        rewrite E; lia.
  - intros k a b c d H1 H2.
    apply nth_chunk_windows in H1 as [Hk1 E1].
    apply nth_chunk_windows in H2 as [Hk2 E2].
    apply pair_equal_spec in E1 as [Ea Eb]. apply pair_equal_spec in E2 as [Ec Ed].
    unfold CHUNK_WORDS in Eb, Ed.
    pose proof (ceil_450_bounds N) as Hb.
    assert (Hc : 450 * S k < N) by lia.
    unfold CHUNK_WORDS, OVERLAP.
    pose proof (Nat.min_spec (450 * k + 500) N).
    pose proof (Nat.min_spec (450 * S k + 500) N).
    pose proof (Nat.min_spec 50 (N - 450 * S k)).
    split; [lia | split; [lia | split; [lia | split; [lia |]]]].
    intros H3; destruct (nth_error (chunk_windows N) (S (S k))) as [w |] eqn:E3;
    [| exfalso; apply H3; reflexivity].
    apply nth_chunk_windows in E3 as [Hk3 _]; lia.
Qed.

(** C5, as stated: the empty text does not yield zero chunks, since
    [''.split(/\s+/)] is [['']]; ingestion then reports one chunk. *)
Lemma empty_text_chunks_fail :
  chunkText EmptyString <> [] /\
  option_map res_chunks
    (fst (ingestPDF (fun _ => Some [1%Q]) EmptyString "m" info0 true true
            (mkCache None))) = Some 1.
Proof. split; [discriminate | reflexivity]. Qed.

(** C5 (amended): the empty text is cut into one chunk, the empty
    string; an ingestion that returns reports one chunk, and it returns
    when the embedding of that chunk and the disk writes succeed. *)
Theorem empty_text_one_chunk (embed : string -> option (list Q))
    (mid : string) (mi : manual_info) (copy_ok save_ok : bool) (c : cache_t) :
  chunkText EmptyString = [EmptyString] /\
  (forall r, fst (ingestPDF embed EmptyString mid mi copy_ok save_ok c) = Some r ->
             res_chunks r = 1) /\
  (forall v, embed EmptyString = Some v -> copy_ok = true -> save_ok = true ->
     fst (ingestPDF embed EmptyString mid mi copy_ok save_ok c) =
     Some (mkIngest mid 1 mi)).
Proof.
  split; [reflexivity | split].
  - intros r. unfold ingestPDF. cbn [chunkText].
    replace (chunkText EmptyString) with [EmptyString] by reflexivity.
    cbn [embed_all].
    destruct (embed EmptyString); [| discriminate].
    destruct copy_ok, save_ok; cbn; try discriminate.
    intros H. inversion H. reflexivity.
  - intros v Hv -> ->. unfold ingestPDF.
    replace (chunkText EmptyString) with [EmptyString] by reflexivity.
    cbn [embed_all]. rewrite Hv. reflexivity.
Qed.

(** ** Scores *)

Lemma cosine_fold_nb_stays (a b : list Q) (l : list nat) (acc : num * num * num) :
  snd acc = NaN -> snd (fold_left (cosine_step a b) l acc) = NaN.
Proof.
  revert acc. induction l as [| i l IH]; intros acc H; [exact H |].
  cbn [fold_left]. apply IH. destruct acc as [[dot na] nb].
  cbn in H. subst nb. unfold cosine_step. cbn [snd num_add].
  destruct (num_mul (at_ b i) (at_ b i)); reflexivity.
Qed.

Lemma cosine_fold_nan (a b : list Q) (l : list nat) (acc : num * num * num) :
  (exists i, In i l /\ at_ b i = NaN) ->
  snd (fold_left (cosine_step a b) l acc) = NaN.
Proof.
  revert acc. induction l as [| i l IH]; intros acc [j [Hj Hb]]; [destruct Hj |].
  cbn [fold_left].
  destruct Hj as [-> | Hj].
  - apply cosine_fold_nb_stays. destruct acc as [[dot na] nb].
    unfold cosine_step. rewrite Hb. cbn [snd num_mul num_add].
    destruct nb; reflexivity.
  - apply IH. exists j. split; assumption.
Qed.

Lemma cosine_fold_ext (a b b' : list Q) (l : list nat) (acc : num * num * num) :
  (forall i, In i l -> at_ b i = at_ b' i) ->
  fold_left (cosine_step a b) l acc = fold_left (cosine_step a b') l acc.
Proof.
  revert acc. induction l as [| i l IH]; intros acc H; [reflexivity |].
  cbn [fold_left]. destruct acc as [[dot na] nb].
  unfold cosine_step at 2 4. rewrite (H i (or_introl eq_refl)).
  apply IH. intros j Hj. apply H. right. exact Hj.
Qed.

(** C6, as stated: no dimension error is raised; a query of length 1
    against a stored vector of length 2 gets the numeric score 1, and the
    search returns that chunk with it. *)
Lemma cosine_dimension_mismatch_scores :
  length [1%Q] <> length [1%Q; 0%Q] /\
  cosine Math_sqrt [1%Q] [1%Q; 0%Q] = Fin 1 /\
  map score (similaritySearch Math_sqrt [1%Q] 4 (store_of [[1%Q; 0%Q]])) = [Fin 1].
Proof. vm_compute. split; [discriminate | split; reflexivity]. Qed.

(** C6 (amended): there is no dimension check. A stored vector shorter
    than the query gets the score [NaN] (reading past its end); a longer
    one is scored on its first [queryVec.length] coordinates. *)
Theorem cosine_differing_dimensions (sqrt : Q -> Q) (a b : list Q) :
  (length b < length a -> cosine sqrt a b = NaN) /\
  (length a <= length b -> cosine sqrt a b = cosine sqrt a (firstn (length a) b)).
Proof.
  split.
  - intros Hlt. unfold cosine.
    destruct (fold_left (cosine_step a b) (seq 0 (length a)) (Fin 0, Fin 0, Fin 0))
      as [[dot na] nb] eqn:E.
    assert (Hnb : nb = NaN).
    { change nb with (snd (dot, na, nb)). rewrite <- E.
      apply cosine_fold_nan. exists (length b). split.
      - apply in_seq. lia.
      - unfold at_. rewrite (proj2 (nth_error_None b (length b))) by lia.
        reflexivity. }
    subst nb. cbn [num_sqrt]. destruct (num_sqrt sqrt na); destruct dot; reflexivity.
  - intros Hle. unfold cosine.
    rewrite (cosine_fold_ext a b (firstn (length a) b)); [reflexivity |].
    intros i Hi. apply in_seq in Hi. unfold at_.
    rewrite nth_error_firstn. destruct (i <? length a) eqn:Hi'; [reflexivity |].
    apply Nat.ltb_ge in Hi'. lia.
Qed.

(** ** The store *)

Lemma assoc_get_app {V : Type} (k : string) (l1 l2 : list (string * V)) :
  assoc_get k (l1 ++ l2) =
  match assoc_get k l1 with Some x => Some x | None => assoc_get k l2 end.
Proof.
  induction l1 as [| [k0 v0] l1 IH]; cbn [app assoc_get]; [reflexivity |].
  destruct (String.eqb k k0); [reflexivity | exact IH].
Qed.

Lemma assoc_get_absent {V : Type} (k : string) (l : list (string * V)) :
  ~ In k (map fst l) -> assoc_get k l = None.
Proof.
  induction l as [| [k0 v0] l IH]; cbn [assoc_get map fst In]; intros Hn; [reflexivity |].
  destruct (String.eqb k k0) eqn:E.
  - apply String.eqb_eq in E. subst k0. exfalso. apply Hn. left. reflexivity.
  - apply IH. intros H. apply Hn. right. exact H.
Qed.

Lemma existsb_eqb_in (k : string) (l : list string) :
  existsb (String.eqb k) l = true <-> In k l.
Proof.
  rewrite existsb_exists. split.
  - intros [x [Hx Hk]]. apply String.eqb_eq in Hk. subst x. exact Hx.
  - intros H. exists k. split; [exact H | apply String.eqb_refl].
Qed.

Lemma assoc_get_replace {V : Type} (k k' : string) (v : V) (l : list (string * V)) :
  In k (map fst l) ->
  assoc_get k' (assoc_replace k v l) = if String.eqb k' k then Some v else assoc_get k' l.
Proof.
  induction l as [| [k0 v0] l IH]; cbn [map fst In]; [intros [] |].
  intros Hin. cbn [assoc_replace].
  destruct (String.eqb k k0) eqn:E1; cbn [assoc_get].
  - apply String.eqb_eq in E1. subst k0.
    destruct (String.eqb k' k); reflexivity.
  - assert (Hl : In k (map fst l)).
    { destruct Hin as [H | H]; [| exact H].
      subst k0. rewrite String.eqb_refl in E1. discriminate. }
    destruct (String.eqb k' k0) eqn:E2.
    + apply String.eqb_eq in E2. subst k0.
      destruct (String.eqb k' k) eqn:E3; [| reflexivity].
      apply String.eqb_eq in E3. subst k'. rewrite String.eqb_refl in E1.
      discriminate.
    + exact (IH Hl).
Qed.

(** Where a new key goes: between a prefix [pre] and the rest [post] of
    the list. For an array index [n], [pre] holds array indices below [n]
    and [post] does not start with one; for another key [post] is
    empty. *)
Lemma add_key_split {V : Type} (k : string) (v : V) (l : list (string * V)) :
  exists pre post,
    l = pre ++ post /\ add_key k v l = pre ++ (k, v) :: post /\
    (array_index k = None -> post = []) /\
    (forall n k0, array_index k = Some n -> In k0 (map fst pre) ->
       exists n0, array_index k0 = Some n0 /\ (n0 < n)%Z) /\
    (forall n k0 v0 post' n0, array_index k = Some n -> post = (k0, v0) :: post' ->
       array_index k0 = Some n0 -> (n <= n0)%Z).
Proof.
  unfold add_key. destruct (array_index k) as [n |] eqn:Ek.
  - induction l as [| [k1 v1] l IH].
    + exists [], []. split; [reflexivity | split; [reflexivity |]].
      split; [discriminate | split; [intros n' k0 _ [] | intros n' k0 v0 post' n0 _ H; discriminate]].
    + cbn [insert_index]. destruct (array_index k1) as [n1 |] eqn:E1.
      * destruct (n1 <? n)%Z eqn:Elt.
        -- destruct IH as (pre & post & Hl & Hins & Hn & Hpre & Hpost).
           exists ((k1, v1) :: pre), post.
           split; [rewrite Hl; reflexivity |]. split; [rewrite Hins; reflexivity |].
           split; [exact Hn |]. split; [| exact Hpost].
           intros n' k0 Hn' [H | H].
           ++ cbn [fst] in H. subst k0. injection Hn' as <-. exists n1.
              split; [exact E1 | apply Z.ltb_lt; exact Elt].
           ++ exact (Hpre n' k0 Hn' H).
        -- exists [], ((k1, v1) :: l).
           split; [reflexivity | split; [reflexivity |]].
           split; [discriminate | split; [intros n' k0 _ [] |]].
           intros n' k0 v0 post' n0 Hn' H H0. injection Hn' as <-.
           injection H as -> -> _. rewrite E1 in H0. injection H0 as <-.
           apply Z.ltb_ge. exact Elt.
      * exists [], ((k1, v1) :: l).
        split; [reflexivity | split; [reflexivity |]].
        split; [discriminate | split; [intros n' k0 _ [] |]].
        intros n' k0 v0 post' n0 _ H H0. injection H as -> -> _.
        rewrite E1 in H0. discriminate.
  - exists l, []. split; [symmetry; apply app_nil_r | split; [reflexivity |]].
    split; [reflexivity | split; [intros n k0 H; discriminate |]].
    intros n k0 v0 post' n0 H; discriminate.
Qed.

Lemma assoc_get_set {V : Type} (k k' : string) (v : V) (l : list (string * V)) :
  assoc_get k' (assoc_set k v l) = if String.eqb k' k then Some v else assoc_get k' l.
Proof.
  unfold assoc_set. destruct (existsb (String.eqb k) (map fst l)) eqn:E.
  - apply assoc_get_replace. apply existsb_eqb_in. exact E.
  - assert (Hn : ~ In k (map fst l)).
    { intros H. apply existsb_eqb_in in H. rewrite H in E. discriminate. }
    destruct (add_key_split k v l) as (pre & post & Hl & Hins & _).
    rewrite Hins, Hl, !assoc_get_app. cbn [assoc_get].
    destruct (String.eqb k' k) eqn:Ek.
    + apply String.eqb_eq in Ek. subst k'.
      rewrite (assoc_get_absent k pre); [reflexivity |].
      intros H. apply Hn. rewrite Hl, map_app. apply in_or_app. left. exact H.
    + destruct (assoc_get k' pre); reflexivity.
Qed.





Lemma verify_fold_length (ms : list (string * manual)) (acc : list chunk) :
  length (fold_left (fun acc '(_, m) => acc ++ embeddings m) ms acc) =
  length acc + list_sum (map (fun '(_, m) => length (embeddings m)) ms).
Proof.
  revert acc. induction ms as [| [mid m] ms IH]; intros acc; simpl.
  - lia.
  - rewrite IH, length_app. lia.
Qed.

(** C10: the chunk counts of the catalog add up to the length of the
    flat chunk list. *)
Theorem catalog_matches_flat_view (c : cache_t) :
  list_sum (map entry_chunks (getAvailableManuals c)) =
  length (verifyVectorStore c).
Proof.
  unfold getAvailableManuals, verifyVectorStore.
  destruct (manuals c) as [ms |]; [| reflexivity].
  rewrite verify_fold_length, map_map. simpl. f_equal.
  apply map_ext. intros [mid m]. reflexivity.
Qed.

(** ** Attribution *)

Lemma count_id_app (k : string) (l1 l2 : list string) :
  count_id k (l1 ++ l2) = count_id k l1 + count_id k l2.
Proof. unfold count_id. rewrite filter_app, length_app. reflexivity. Qed.

Lemma count_id_snoc (k x : string) (l : list string) :
  count_id k (l ++ [x]) = count_id k l + (if String.eqb k x then 1 else 0).
Proof.
  rewrite count_id_app. unfold count_id at 2. simpl.
  destruct (String.eqb k x); reflexivity.
Qed.

Lemma app_snoc_prefix {A : Type} (q s p : list A) (x : A) :
  q ++ s = p ++ [x] -> (s = [] /\ q = p ++ [x]) \/ exists s', p = q ++ s'.
Proof.
  destruct s as [| y s'] using rev_ind; intros H.
  - left. rewrite app_nil_r in H. split; [reflexivity | exact H].
  - right. rewrite app_assoc in H. apply app_inj_tail in H as [H _].
    exists s'. symmetry. exact H.
Qed.

Lemma attr_inv_nil : attr_inv [] ([], None, 0).
Proof.
  split; [| split; [| split; [| split]]].
  - intros id. reflexivity.
  - intros id. cbn. lia.
  - intros _. reflexivity.
  - intros H. contradiction.
  - intros q s id H Hlt. cbn in Hlt. lia.
Qed.

Lemma attr_inv_step (p : list string) (x : string)
    (st : list (string * nat) * option string * nat) :
  attr_inv p st -> attr_inv (p ++ [x]) (attribution_step st x).
Proof.
  destruct st as [[counts top] tc]. intros (I1 & I2 & I3 & I4 & I5).
  unfold attribution_step. rewrite (I1 x).
  assert (Hc : forall id, count_id id (p ++ [x]) =
                          count_id id p + (if String.eqb id x then 1 else 0))
    by (intros; apply count_id_snoc).
  assert (HI1 : forall id,
            match assoc_get id (assoc_set x (count_id x p + 1) counts) with
            | Some n => n | None => 0 end = count_id id (p ++ [x])).
  { intros id. rewrite assoc_get_set, Hc.
    destruct (String.eqb id x) eqn:E.
    - apply String.eqb_eq in E. subst id. reflexivity.
    - rewrite I1. lia. }
  assert (Hnil : p ++ [x] <> []) by (intros H; destruct p; discriminate).
  destruct (tc <? count_id x p + 1) eqn:Hlt.
  - apply Nat.ltb_lt in Hlt.
    split; [exact HI1 | split; [| split; [| split]]].
    + intros id. rewrite Hc. specialize (I2 id).
      destruct (String.eqb id x) eqn:E; [apply String.eqb_eq in E; subst id |]; lia.
    + intros H. contradiction.
    + intros _. exists x. split; [reflexivity |]. rewrite Hc, String.eqb_refl. lia.
    + intros q s id Hq Hpos Hid.
      destruct (app_snoc_prefix q s p x (eq_sym Hq)) as [[_ ->] | [s' ->]].
      * exists x. split; [reflexivity |]. rewrite Hc, String.eqb_refl. lia.
      * exfalso. specialize (I2 id). rewrite count_id_app in I2. lia.
  - apply Nat.ltb_ge in Hlt.
    assert (Htop : exists t, top = Some t /\ count_id t (p ++ [x]) = tc).
    { destruct p as [| y p'].
      - specialize (I3 eq_refl). cbn in Hlt. lia.
      - destruct (I4 ltac:(discriminate)) as [t [Ht Hct]].
        exists t. split; [exact Ht |]. rewrite Hc.
        destruct (String.eqb t x) eqn:E; [| lia].
        apply String.eqb_eq in E. subst t. lia. }
    split; [exact HI1 | split; [| split; [| split]]].
    + intros id. rewrite Hc. specialize (I2 id).
      destruct (String.eqb id x) eqn:E; [apply String.eqb_eq in E; subst id |]; lia.
    + intros H. contradiction.
    + intros _. exact Htop.
    + intros q s id Hq Hpos Hid.
      destruct (app_snoc_prefix q s p x (eq_sym Hq)) as [[_ ->] | [s' Hp]].
      * exact Htop.
      * exact (I5 q s' id Hp Hpos Hid).
Qed.

Lemma attr_inv_fold (ids : list string) :
  attr_inv ids (fold_left attribution_step ids ([], None, 0)).
Proof.
  induction ids as [| x ids IH] using rev_ind.
  - exact attr_inv_nil.
  - rewrite fold_left_app. cbn [fold_left]. apply attr_inv_step, IH.
Qed.




(** ** Loading *)

(** C8, as stated: a file holding [null] (valid JSON, falsy) leaves the
    cache [null] rather than the empty store, and the next [load()]
    reads the file again and returns its new content. *)
Lemma load_null_file_not_cached :
  fst (load JSON_parse (Some "null"%string) JNull) = JNull /\
  load JSON_parse (Some "{}"%string)
       (fst (load JSON_parse (Some "null"%string) JNull)) = (JObj [], true).
Proof. vm_compute. split; reflexivity. Qed.

(** C8 (amended): while the cache is falsy, [load()] reads the file;
    an absent or unreadable file, or content [JSON.parse] rejects, gives
    the empty store [{ manuals: {} }] (truthy, so it stays cached), and
    valid JSON becomes the cache as parsed. Once the cache is truthy,
    [load()] returns it without reading the file. *)
Theorem load_spec (parse : string -> option json) :
  truthy empty_cache = true /\
  (forall cache, truthy cache = false ->
     load parse None cache = (empty_cache, true)) /\
  (forall cache s, truthy cache = false -> parse s = None ->
     load parse (Some s) cache = (empty_cache, true)) /\
  (forall cache s v, truthy cache = false -> parse s = Some v ->
     load parse (Some s) cache = (v, true)) /\
  (forall cache file, truthy cache = true ->
     load parse file cache = (cache, false)).
Proof.
  split; [reflexivity |].
  unfold load.
  split; [intros cache H; rewrite H; reflexivity |].
  split; [intros cache s H Hp; rewrite H, Hp; reflexivity |].
  split; [intros cache s v H Hp; rewrite H, Hp; reflexivity |].
  intros cache file H. rewrite H. reflexivity.
Qed.

(** ** The candidates of the search *)

Lemma scan_chunks_filter (keep : num -> bool) (sqrt : Q -> Q) (queryVec : list Q)
    (mid : string) (mi : manual_info) (cs : list chunk) (idx : nat) :
  scan_chunks keep sqrt queryVec mid mi cs idx =
  filter (fun r => keep (score r)) (scan_chunks keep_all sqrt queryVec mid mi cs idx).
Proof.
  revert idx. induction cs as [| ch cs IH]; intros idx; [reflexivity |].
  cbn [scan_chunks]. unfold keep_all at 1. cbn [filter score].
  rewrite <- IH. reflexivity.
Qed.

(** The first loop keeps exactly the results of the second one that pass
    the threshold. *)
Lemma scan_filter (keep : num -> bool) (sqrt : Q -> Q) (queryVec : list Q)
    (ms : list (string * manual)) :
  scan keep sqrt queryVec ms =
  filter (fun r => keep (score r)) (scan keep_all sqrt queryVec ms).
Proof.
  induction ms as [| [mid m] ms IH]; [reflexivity |].
  unfold scan. cbn [flat_map]. rewrite filter_app.
  fold (scan keep sqrt queryVec ms) (scan keep_all sqrt queryVec ms).
  rewrite <- IH, <- scan_chunks_filter. reflexivity.
Qed.

Lemma scan_chunks_all_length (sqrt : Q -> Q) (queryVec : list Q) (mid : string)
    (mi : manual_info) (cs : list chunk) (idx : nat) :
  length (scan_chunks keep_all sqrt queryVec mid mi cs idx) = length cs.
Proof.
  revert idx. induction cs as [| ch cs IH]; intros idx; [reflexivity |].
  cbn [scan_chunks]. unfold keep_all at 1. cbn [length]. rewrite IH. reflexivity.
Qed.

(** Every stored chunk is scored once by the unfiltered loop. *)
Lemma scan_all_length (sqrt : Q -> Q) (queryVec : list Q) (c : cache_t) :
  length (scan keep_all sqrt queryVec (manual_list c)) = length (verifyVectorStore c).
Proof.
  unfold manual_list, verifyVectorStore.
  destruct (manuals c) as [ms |]; [| reflexivity].
  rewrite verify_fold_length. cbn [length plus].
  induction ms as [| [mid m] ms IH]; [reflexivity |].
  unfold scan in *. cbn [flat_map map list_sum].
  rewrite length_app, scan_chunks_all_length, IH. reflexivity.
Qed.

Lemma insert_by_perm {A : Type} (cmp : A -> A -> num) (x : A) (l : list A) :
  Permutation (insert_by cmp x l) (x :: l).
Proof.
  induction l as [| e l IH]; cbn [insert_by]; [reflexivity |].
  destruct (sort_after (cmp e x)); [reflexivity |].
  rewrite IH. apply perm_swap.
Qed.

Lemma js_sort_fold_perm {A : Type} (cmp : A -> A -> num) (l acc : list A) :
  Permutation (fold_left (fun acc x => insert_by cmp x acc) l acc) (l ++ acc).
Proof.
  revert acc. induction l as [| x l IH]; intros acc; [reflexivity |].
  cbn [fold_left]. rewrite IH, insert_by_perm. symmetry. apply Permutation_middle.
Qed.

Lemma js_sort_perm {A : Type} (cmp : A -> A -> num) (l : list A) :
  Permutation (js_sort cmp l) l.
Proof. unfold js_sort. rewrite js_sort_fold_perm, app_nil_r. reflexivity. Qed.

Lemma js_sort_length {A : Type} (cmp : A -> A -> num) (l : list A) :
  length (js_sort cmp l) = length l.
Proof. apply Permutation_length, js_sort_perm. Qed.

Lemma firstn_nonempty {A : Type} (n : nat) (l : list A) :
  0 < n -> l <> [] -> firstn n l <> [].
Proof. destruct n, l; cbn; [lia | lia | contradiction | discriminate]. Qed.

(** C1: the first loop collects exactly the chunks scoring above 0.4;
    when none does, the candidates are all the chunks, unfiltered; the
    search returns a prefix of the sorted candidates, which is non-empty
    as soon as one chunk is stored and [topK >= 1] (default 4). *)
Theorem similaritySearch_threshold_fallback (sqrt : Q -> Q) (queryVec : list Q)
    (topK : Z) (c : cache_t) :
  let ms := manual_list c in
  let all := scan keep_all sqrt queryVec ms in
  let passing := filter (fun r => above_threshold (score r)) all in
  scan above_threshold sqrt queryVec ms = passing /\
  candidates sqrt queryVec ms = match passing with [] => all | _ => passing end /\
  (verifyVectorStore c <> [] ->
     similaritySearch sqrt queryVec topK c =
       slice0 (js_sort by_score_desc (candidates sqrt queryVec ms)) topK /\
     Permutation (js_sort by_score_desc (candidates sqrt queryVec ms))
                 (candidates sqrt queryVec ms) /\
     ((1 <= topK)%Z -> similaritySearch sqrt queryVec topK c <> [])).
Proof.
  intros ms all passing.
  assert (Hscan : scan above_threshold sqrt queryVec ms = passing)
    by apply scan_filter.
  assert (Hcand : candidates sqrt queryVec ms =
                  match passing with [] => all | _ => passing end)
    by (unfold candidates; rewrite Hscan; destruct passing; reflexivity).
  split; [exact Hscan | split; [exact Hcand |]].
  intros Hne.
  assert (Hall : all <> []).
  { intros H. apply Hne. apply length_zero_iff_nil.
    rewrite <- (scan_all_length sqrt queryVec c). fold ms all. rewrite H. reflexivity. }
  assert (Hms : ms <> []) by (intros H; apply Hall; unfold all; rewrite H; reflexivity).
  assert (Heq : similaritySearch sqrt queryVec topK c =
                slice0 (js_sort by_score_desc (candidates sqrt queryVec ms)) topK).
  { unfold similaritySearch. unfold ms, manual_list in Hms |- *.
    destruct (manuals c) as [[| m0 ms'] |]; [contradiction | reflexivity | contradiction]. }
  split; [exact Heq | split; [apply js_sort_perm |]].
  intros Hk. rewrite Heq. unfold slice0.
  destruct (topK <? 0)%Z eqn:E; [apply Z.ltb_lt in E; lia |].
  apply firstn_nonempty; [lia |].
  intros Hs.
  assert (Hc0 : candidates sqrt queryVec ms = []).
  { apply Permutation_nil. rewrite <- Hs. apply js_sort_perm. }
  rewrite Hcand in Hc0. destruct passing; [exact (Hall Hc0) | discriminate].
Qed.

(** ** Ordering of the results *)

Definition finite_scores (l : list result) : Prop :=
  forall r, In r l -> score r <> NaN.

Lemma score_ge_trans (a b c : num) : score_ge a b -> score_ge b c -> score_ge a c.
Proof.
  destruct a, b, c; cbn; try tauto. intros H1 H2. apply (Qle_trans _ q0); assumption.
Qed.

(** The comparator puts [e] after [x] exactly when [x] scores higher. *)
Lemma sort_after_by_score (e x : result) (qe qx : Q) :
  score e = Fin qe -> score x = Fin qx ->
  sort_after (by_score_desc e x) = true <-> (qe < qx)%Q.
Proof.
  intros He Hx. unfold by_score_desc. rewrite He, Hx. cbn.
  rewrite negb_true_iff. split.
  - intros H. destruct (Qlt_le_dec qe qx) as [Hl | Hl]; [exact Hl |].
    assert (Hb : Qle_bool (qx - qe) 0 = true) by (apply Qle_bool_iff; lra).
    rewrite Hb in H. discriminate.
  - intros H. destruct (Qle_bool (qx - qe) 0) eqn:Hb; [| reflexivity].
    apply Qle_bool_iff in Hb. lra.
Qed.

Lemma finite_score (r : result) : score r <> NaN -> exists q, score r = Fin q.
Proof. destruct (score r) as [q |]; [eauto | contradiction]. Qed.

Lemma insert_hdrel (a x : result) (l : list result) :
  score_ge (score a) (score x) ->
  HdRel (fun r1 r2 => score_ge (score r1) (score r2)) a l ->
  HdRel (fun r1 r2 => score_ge (score r1) (score r2)) a (insert_by by_score_desc x l).
Proof.
  intros Hax Hl. destruct l as [| e l']; cbn [insert_by].
  - constructor. exact Hax.
  - destruct (sort_after (by_score_desc e x)); constructor; [exact Hax |].
    inversion Hl. assumption.
Qed.

Lemma insert_sorted (x : result) (l : list result) :
  score x <> NaN -> finite_scores l -> sorted_desc l ->
  sorted_desc (insert_by by_score_desc x l).
Proof.
  intros Hx. induction l as [| e l IH]; intros Hfin Hs; cbn [insert_by].
  - repeat constructor.
  - destruct (finite_score x Hx) as [qx Eqx].
    destruct (finite_score e (Hfin e (or_introl eq_refl))) as [qe Eqe].
    destruct (sort_after (by_score_desc e x)) eqn:Ha.
    + apply (sort_after_by_score e x qe qx Eqe Eqx) in Ha.
      constructor; [exact Hs |]. constructor. rewrite Eqx, Eqe. cbn. lra.
    + assert (Hle : (qx <= qe)%Q).
      { destruct (Qlt_le_dec qe qx) as [Hl | Hl]; [| exact Hl].
        apply (sort_after_by_score e x qe qx Eqe Eqx) in Hl. congruence. }
      apply Sorted_inv in Hs as [Hs Hhd].
      constructor.
      * apply IH; [intros r Hr; apply Hfin; right; exact Hr | exact Hs].
      * apply insert_hdrel; [rewrite Eqx, Eqe; cbn; exact Hle | exact Hhd].
Qed.

Lemma filter_all_false {A : Type} (f : A -> bool) (l : list A) :
  (forall r, In r l -> f r = false) -> filter f l = [].
Proof.
  induction l as [| a l IH]; intros H; [reflexivity |].
  cbn. rewrite (H a (or_introl eq_refl)). apply IH. intros r Hr. apply H. right. exact Hr.
Qed.

(** Inserting [x] puts it after every element of the same score. *)
Lemma insert_filter (q : Q) (x : result) (l : list result) :
  score x <> NaN -> finite_scores l -> sorted_desc l ->
  filter (score_is q) (insert_by by_score_desc x l) =
  filter (score_is q) l ++ (if score_is q x then [x] else []).
Proof.
  intros Hx. induction l as [| e l IH]; intros Hfin Hs; cbn [insert_by].
  - cbn. destruct (score_is q x); reflexivity.
  - destruct (finite_score x Hx) as [qx Eqx].
    destruct (finite_score e (Hfin e (or_introl eq_refl))) as [qe Eqe].
    destruct (sort_after (by_score_desc e x)) eqn:Ha.
    + apply (sort_after_by_score e x qe qx Eqe Eqx) in Ha.
      change (filter (score_is q) (x :: e :: l)) with
        (if score_is q x then x :: filter (score_is q) (e :: l)
         else filter (score_is q) (e :: l)).
      destruct (score_is q x) eqn:Hqx.
      * rewrite (filter_all_false (score_is q) (e :: l)); [reflexivity |].
        apply Sorted_StronglySorted in Hs; [| intros a b c; apply score_ge_trans].
        intros r Hr. unfold score_is in Hqx |- *. rewrite Eqx in Hqx.
        apply Qeq_bool_iff in Hqx.
        destruct (score r) as [qr |] eqn:Er; [| reflexivity].
        assert (Hre : (qr <= qe)%Q).
        { destruct Hr as [<- | Hr].
          - rewrite Eqe in Er. injection Er as ->. lra.
          - apply StronglySorted_inv in Hs as [_ Hall].
            rewrite Forall_forall in Hall. specialize (Hall r Hr).
            rewrite Eqe, Er in Hall. exact Hall. }
        destruct (Qeq_bool qr q) eqn:Eq; [| reflexivity].
        apply Qeq_bool_iff in Eq. lra.
      * rewrite app_nil_r. reflexivity.
    + apply Sorted_inv in Hs as [Hs _].
      cbn [filter]. rewrite IH; [| intros r Hr; apply Hfin; right; exact Hr | exact Hs].
      destruct (score_is q e); reflexivity.
Qed.

Lemma js_sort_fold_spec (q : Q) (l acc : list result) :
  finite_scores l -> finite_scores acc -> sorted_desc acc ->
  sorted_desc (fold_left (fun acc x => insert_by by_score_desc x acc) l acc) /\
  filter (score_is q) (fold_left (fun acc x => insert_by by_score_desc x acc) l acc) =
  filter (score_is q) acc ++ filter (score_is q) l.
Proof.
  revert acc. induction l as [| x l IH]; intros acc Hl Hacc Hs.
  - cbn. rewrite app_nil_r. split; [exact Hs | reflexivity].
  - cbn [fold_left].
    assert (Hx : score x <> NaN) by (apply Hl; left; reflexivity).
    assert (Hl' : finite_scores l) by (intros r Hr; apply Hl; right; exact Hr).
    assert (Hacc' : finite_scores (insert_by by_score_desc x acc)).
    { intros r Hr. apply (Permutation_in _ (insert_by_perm _ x acc)) in Hr.
      destruct Hr as [<- | Hr]; [exact Hx | apply Hacc; exact Hr]. }
    destruct (IH (insert_by by_score_desc x acc) Hl' Hacc'
                 (insert_sorted x acc Hx Hacc Hs)) as [IHs IHf].
    split; [exact IHs |].
    rewrite IHf, insert_filter by assumption.
    rewrite <- app_assoc. cbn [filter]. destruct (score_is q x); reflexivity.
Qed.

Lemma sorted_firstn {A : Type} (R : A -> A -> Prop) (n : nat) (l : list A) :
  Sorted R l -> Sorted R (firstn n l).
Proof.
  revert l. induction n as [| n IH]; intros l Hs; [constructor |].
  destruct l as [| a l]; [constructor |]. cbn [firstn].
  apply Sorted_inv in Hs as [Hs Hhd]. constructor; [apply IH; exact Hs |].
  destruct l as [| b l], n; cbn; constructor. inversion Hhd. assumption.
Qed.

(** C2, as stated: the length bound fails for a negative [k]
    ([slice(0, -1)] drops only the last result), and with a [NaN] score
    (a zero vector) the results are not in descending order of score. *)
Lemma search_order_claim_fails :
  (Z.of_nat (length (similaritySearch Math_sqrt [1%Q] (-1) (store_of [[1%Q]; [1%Q]])))
     > -1)%Z /\
  ~ sorted_desc (similaritySearch Math_sqrt [1%Q] 4 (store_of [[0%Q]; [(-1)%Q]])).
Proof.
  split; [vm_compute; reflexivity |].
  intros H. vm_compute in H.
  inversion H as [| a l Hs Hhd]; subst.
  inversion Hhd; subst. assumption.
Qed.

(** C2 (amended): for every [k], with [n] candidates, the search returns
    [min(k, n)] results when [k >= 0] and [n - |k|] (at least [0]) when
    [k < 0], since [slice(0, k)] then drops the last [|k|]; the results
    are candidates, each used at most once. When no candidate score is
    [NaN], the result is [slice(0, k)] of the candidates sorted by the
    comparator, the first [k] of them for [k >= 0]; that sorted list,
    hence the result, is in descending order of score, it is a
    permutation of the candidates, and candidates of equal score keep
    their scan order (stable sort). *)
Theorem similaritySearch_sorted_stable (sqrt : Q -> Q) (queryVec : list Q)
    (topK : Z) (c : cache_t) :
  let cs := candidates sqrt queryVec (manual_list c) in
  let out := similaritySearch sqrt queryVec topK c in
  length out = (if (topK <? 0)%Z then length cs - Z.to_nat (- topK)
                else Nat.min (Z.to_nat topK) (length cs)) /\
  ((0 <= topK)%Z -> (Z.of_nat (length out) <= topK)%Z) /\
  (exists rest, Permutation cs (out ++ rest)) /\
  (finite_scores cs ->
   out = slice0 (js_sort by_score_desc cs) topK /\
   ((0 <= topK)%Z -> out = firstn (Z.to_nat topK) (js_sort by_score_desc cs)) /\
   sorted_desc (js_sort by_score_desc cs) /\
   sorted_desc out /\
   Permutation (js_sort by_score_desc cs) cs /\
   (forall q, filter (score_is q) (js_sort by_score_desc cs) = filter (score_is q) cs)).
Proof.
  intros cs out.
  assert (Hout : out = slice0 (js_sort by_score_desc cs) topK).
  { unfold out, cs, similaritySearch, manual_list.
    destruct (manuals c) as [[| m0 ms] |]; [| reflexivity |];
      unfold slice0; destruct (topK <? 0)%Z; symmetry; apply firstn_nil. }
  assert (Hj : exists j, out = firstn j (js_sort by_score_desc cs) /\
                 j = (if (topK <? 0)%Z then length cs - Z.to_nat (- topK)
                      else Z.to_nat topK)).
  { rewrite Hout. unfold slice0. rewrite js_sort_length.
    destruct (topK <? 0)%Z; eexists; split; reflexivity. }
  destruct Hj as [j [Hoj Hjv]].
  pose proof (js_sort_perm by_score_desc cs) as Hperm.
  split.
  { rewrite Hoj, length_firstn, js_sort_length, Hjv.
    destruct (topK <? 0)%Z; lia. }
  split.
  { intros Hk. rewrite Hoj, length_firstn, Hjv.
    replace (topK <? 0)%Z with false by (symmetry; apply Z.ltb_ge; exact Hk). lia. }
  split.
  { exists (skipn j (js_sort by_score_desc cs)). rewrite Hoj, firstn_skipn.
    apply Permutation_sym. exact Hperm. }
  intros Hfin.
  assert (Hnil : finite_scores []) by (intros r []).
  assert (Hsnil : sorted_desc []) by constructor.
  destruct (js_sort_fold_spec 0 cs [] Hfin Hnil Hsnil) as [Hsorted _].
  fold (js_sort by_score_desc cs) in Hsorted.
  split; [exact Hout |].
  split.
  { intros Hk. rewrite Hoj, Hjv.
    replace (topK <? 0)%Z with false by (symmetry; apply Z.ltb_ge; exact Hk).
    reflexivity. }
  split; [exact Hsorted |].
  split; [rewrite Hoj; apply sorted_firstn; exact Hsorted |].
  split; [exact Hperm |].
  intros q. destruct (js_sort_fold_spec q cs [] Hfin Hnil Hsnil) as [_ Hf].
  exact Hf.
Qed.

Lemma similaritySearch_sorted_stable_witness :
  let c := store_of [[1%Q]; [2%Q]] in
  finite_scores (candidates Math_sqrt [1%Q] (manual_list c)) /\
  similaritySearch Math_sqrt [1%Q] (-1) c =
    slice0 (js_sort by_score_desc (candidates Math_sqrt [1%Q] (manual_list c))) (-1) /\
  length (similaritySearch Math_sqrt [1%Q] (-1) c) = 1.
Proof.
  intros c.
  assert (Hf : finite_scores (candidates Math_sqrt [1%Q] (manual_list c))).
  { intros r Hr. vm_compute in Hr.
    destruct Hr as [<- | [<- | []]]; discriminate. }
  pose proof (similaritySearch_sorted_stable Math_sqrt [1%Q] (-1) c) as H.
  cbv zeta in H. destruct H as (Hlen & _ & _ & Hsort).
  split; [exact Hf | split; [exact (proj1 (Hsort Hf)) |]].
  rewrite Hlen. vm_compute. reflexivity.
Defined.

(** * Further properties of the store, the versions and the route *)

(** ** Chunk metadata and the store *)

Lemma find_some_split {A : Type} (f : A -> bool) (l : list A) (x : A) :
  find f l = Some x ->
  exists pre post, l = pre ++ x :: post /\ f x = true /\
                   (forall y, In y pre -> f y = false).
Proof.
  induction l as [| a l IH]; cbn [find]; [discriminate |].
  destruct (f a) eqn:Ea.
  - intros H. injection H as <-. exists [], l. split; [reflexivity |].
    split; [exact Ea | intros y []].
  - intros H. destruct (IH H) as (pre & post & -> & Hx & Hpre).
    exists (a :: pre), post. split; [reflexivity |]. split; [exact Hx |].
    intros y [<- | Hy]; [exact Ea | exact (Hpre y Hy)].
Qed.

Lemma find_none_all {A : Type} (f : A -> bool) (l : list A) :
  find f l = None -> forall y, In y l -> f y = false.
Proof.
  induction l as [| a l IH]; cbn [find]; [intros _ y [] |].
  destruct (f a) eqn:Ea; [discriminate |].
  intros H y [<- | Hy]; [exact Ea | exact (IH H y Hy)].
Qed.



Lemma substring0_length (n : nat) (s : string) :
  String.length (substring 0 n s) = Nat.min n (String.length s).
Proof.
  revert n. induction s as [| ch s IH]; intros [| n]; cbn; try reflexivity.
  rewrite IH. reflexivity.
Qed.

Lemma substring0_all (n : nat) (s : string) :
  String.length s <= n -> substring 0 n s = s.
Proof.
  revert n. induction s as [| ch s IH]; intros [| n] Hn; cbn in *;
    try reflexivity; try lia.
  rewrite IH; [reflexivity | lia].
Qed.

Lemma length_append (s t : string) :
  String.length (String.append s t) = String.length s + String.length t.
Proof. induction s as [| ch s IH]; cbn; [reflexivity | rewrite IH; reflexivity]. Qed.

(** A preview is the first [min(100, n)] characters of a text of [n]
    characters followed by ["..."]: at most 103 characters, and the whole
    text plus ["..."] when it has at most 100 characters. *)
Theorem preview_shape (text : string) :
  String.length (preview text) = Nat.min 100 (String.length text) + 3 /\
  prefix (substring 0 100 text) text = true /\
  (String.length text <= 100 -> preview text = String.append text "...").
Proof.
  unfold preview. split; [| split].
  - rewrite length_append, substring0_length. reflexivity.
  - apply prefix_correct. rewrite substring0_length.
    revert text. generalize 100.
    intros n text. revert n. induction text as [| ch s IH]; intros [| n]; cbn;
      try reflexivity.
    rewrite IH. reflexivity.
  - intros H. rewrite substring0_all by exact H. reflexivity.
Qed.

Lemma assoc_get_in {V : Type} (k : string) (v : V) (l : list (string * V)) :
  assoc_get k l = Some v -> In (k, v) l.
Proof.
  induction l as [| [k0 v0] l IH]; cbn [assoc_get]; [discriminate |].
  destruct (String.eqb k k0) eqn:E.
  - apply String.eqb_eq in E. subst k0. intros H. injection H as <-. left. reflexivity.
  - intros H. right. exact (IH H).
Qed.

Lemma fold_flat_app (ms1 ms2 : list (string * manual)) (acc : list chunk) :
  fold_left (fun acc '(_, m) => acc ++ embeddings m) (ms1 ++ ms2) acc =
  fold_left (fun acc '(_, m) => acc ++ embeddings m) ms2
    (fold_left (fun acc '(_, m) => acc ++ embeddings m) ms1 acc).
Proof. apply fold_left_app. Qed.

Lemma fold_flat_acc (ms : list (string * manual)) (acc : list chunk) :
  fold_left (fun acc '(_, m) => acc ++ embeddings m) ms acc =
  acc ++ fold_left (fun acc '(_, m) => acc ++ embeddings m) ms [].
Proof.
  revert acc. induction ms as [| [mid m] ms IH]; intros acc; cbn [fold_left].
  - symmetry. apply app_nil_r.
  - rewrite (IH (acc ++ embeddings m)), (IH ([] ++ embeddings m)).
    rewrite app_assoc. reflexivity.
Qed.




(** ** Where search results come from *)

Lemma scan_chunks_in (keep : num -> bool) (sqrt : Q -> Q) (queryVec : list Q)
    (mid : string) (mi : manual_info) (cs : list chunk) (idx : nat) (r : result) :
  In r (scan_chunks keep sqrt queryVec mid mi cs idx) ->
  exists j ch, nth_error cs j = Some ch /\
    r = mkResult (ctext ch) (cosine sqrt queryVec (vector ch)) mid mi
          (chunk_id ch (idx + j)).
Proof.
  revert idx. induction cs as [| ch cs IH]; intros idx; cbn [scan_chunks]; [intros [] |].
  intros Hin.
  assert (Hrest : In r (scan_chunks keep sqrt queryVec mid mi cs (S idx)) ->
    exists j ch0, nth_error (ch :: cs) j = Some ch0 /\
      r = mkResult (ctext ch0) (cosine sqrt queryVec (vector ch0)) mid mi
            (chunk_id ch0 (idx + j))).
  { intros H. destruct (IH (S idx) H) as (j & ch0 & Hj & ->).
    exists (S j), ch0. split; [exact Hj |]. do 2 f_equal. lia. }
  destruct (keep (cosine sqrt queryVec (vector ch))).
  - destruct Hin as [<- | Hin]; [| exact (Hrest Hin)].
    exists 0, ch. split; [reflexivity |]. rewrite Nat.add_0_r. reflexivity.
  - exact (Hrest Hin).
Qed.

Lemma scan_in (keep : num -> bool) (sqrt : Q -> Q) (queryVec : list Q)
    (ms : list (string * manual)) (r : result) :
  In r (scan keep sqrt queryVec ms) ->
  exists mid m j ch, In (mid, m) ms /\ nth_error (embeddings m) j = Some ch /\
    r = mkResult (ctext ch) (cosine sqrt queryVec (vector ch)) mid (info m)
          (chunk_id ch j).
Proof.
  unfold scan. intros Hin. apply in_flat_map in Hin.
  destruct Hin as ([mid m] & Hms & Hr).
  destruct (scan_chunks_in _ _ _ _ _ _ _ _ Hr) as (j & ch & Hj & ->).
  exists mid, m, j, ch. split; [exact Hms |]. split; [exact Hj | reflexivity].
Qed.

Lemma in_firstn_in {A : Type} (n : nat) (l : list A) (x : A) :
  In x (firstn n l) -> In x l.
Proof.
  intros H. rewrite <- (firstn_skipn n l). apply in_or_app. left. exact H.
Qed.

Lemma in_slice0 {A : Type} (l : list A) (k : Z) (x : A) :
  In x (slice0 l k) -> In x l.
Proof. unfold slice0. destruct (k <? 0)%Z; apply in_firstn_in. Qed.

(** Every result of [similaritySearch] describes a stored chunk: the
    chunk at some position [j] of a manual of the store, with that
    chunk's text, its score against the query, the manual's id and info,
    and the chunk's id (or [chunk-j]). *)
Theorem search_result_provenance (sqrt : Q -> Q) (queryVec : list Q) (topK : Z)
    (c : cache_t) (r : result) :
  In r (similaritySearch sqrt queryVec topK c) ->
  exists mid m j ch,
    In (mid, m) (manual_list c) /\ nth_error (embeddings m) j = Some ch /\
    r = mkResult (ctext ch) (cosine sqrt queryVec (vector ch)) mid (info m)
          (chunk_id ch j).
Proof.
  unfold similaritySearch, manual_list.
  destruct (manuals c) as [[| p ms] |]; [intros [] | | intros []].
  intros Hin. apply in_slice0 in Hin.
  apply (Permutation_in _ (js_sort_perm _ _)) in Hin.
  unfold candidates in Hin.
  destruct (scan above_threshold sqrt queryVec (p :: ms)) eqn:E.
  - exact (scan_in _ _ _ _ _ Hin).
  - rewrite <- E in Hin. exact (scan_in _ _ _ _ _ Hin).
Qed.

Lemma search_result_provenance_witness :
  let c := store_of [[1%Q]; [0%Q; 1%Q]] in
  let r := nth 0 (similaritySearch Math_sqrt [1%Q] 4 c)
             (mkResult "" NaN "" info0 "") in
  In r (similaritySearch Math_sqrt [1%Q] 4 c) /\
  exists mid m j ch,
    In (mid, m) (manual_list c) /\ nth_error (embeddings m) j = Some ch /\
    r = mkResult (ctext ch) (cosine Math_sqrt [1%Q] (vector ch)) mid (info m)
          (chunk_id ch j).
Proof.
  intros c r.
  assert (H : In r (similaritySearch Math_sqrt [1%Q] 4 c)) by (vm_compute; left; reflexivity).
  split; [exact H |].
  exact (search_result_provenance Math_sqrt [1%Q] 4 c r H).
Defined.

Lemma assoc_get_nodup {V : Type} (k : string) (v : V) (l : list (string * V)) :
  NoDup (map fst l) -> In (k, v) l -> assoc_get k l = Some v.
Proof.
  induction l as [| [k0 v0] l IH]; cbn [assoc_get map fst]; [intros _ [] |].
  intros Hnd Hin. inversion Hnd as [| x xs Hnot Hnd' Heq]. subst.
  destruct Hin as [Heq | Hin].
  - injection Heq as -> ->. rewrite String.eqb_refl. reflexivity.
  - destruct (String.eqb k k0) eqn:E.
    + apply String.eqb_eq in E. subst k0. exfalso. apply Hnot.
      apply in_map_iff. exists (k, v). split; [reflexivity | exact Hin].
    + exact (IH Hnd' Hin).
Qed.

Lemma find_some_of_in {A : Type} (f : A -> bool) (l : list A) (x : A) :
  In x l -> f x = true -> exists y, find f l = Some y /\ f y = true.
Proof.
  induction l as [| a l IH]; cbn [find]; [intros [] |].
  intros [-> | Hin] Hx.
  - rewrite Hx. exists x. split; [reflexivity | exact Hx].
  - destruct (f a) eqn:Ea; [exists a; split; [reflexivity | exact Ea] |].
    exact (IH Hin Hx).
Qed.

(** When the manual ids are distinct (as the keys of an object are) and
    every stored chunk has an id, the [manualId] and [chunkId] of every
    search result resolve through [getChunkMetadata] to that manual. *)
Theorem search_results_resolve (sqrt : Q -> Q) (queryVec : list Q) (topK : Z)
    (c : cache_t) (r : result) :
  NoDup (map fst (manual_list c)) ->
  (forall mid m ch, In (mid, m) (manual_list c) -> In ch (embeddings m) ->
     cid ch <> ""%string) ->
  In r (similaritySearch sqrt queryVec topK c) ->
  exists meta, getChunkMetadata c (manualId r) (chunkId r) = Some meta /\
    meta_id meta = chunkId r /\ meta_manualId meta = manualId r /\
    meta_manualInfo meta = manualInfo r.
Proof.
  intros Hnd Hids Hin.
  destruct (search_result_provenance sqrt queryVec topK c r Hin)
    as (mid & m & j & ch & Hms & Hj & ->).
  cbn [manualId chunkId manualInfo].
  assert (Hch : In ch (embeddings m)) by exact (nth_error_In _ _ Hj).
  assert (Hid : chunk_id ch j = cid ch).
  { unfold chunk_id. destruct (String.eqb (cid ch) "") eqn:E; [| reflexivity].
    apply String.eqb_eq in E. exfalso. exact (Hids mid m ch Hms Hch E). }
  rewrite Hid. unfold getChunkMetadata, lookup_manual.
  unfold manual_list in Hnd, Hms.
  destruct (manuals c) as [ms |]; [| destruct Hms].
  rewrite (assoc_get_nodup _ _ _ Hnd Hms).
  destruct (find_some_of_in (fun emb => String.eqb (cid emb) (cid ch)) _ _ Hch
              (String.eqb_refl _)) as (y & Hy & Hyid).
  rewrite Hy. apply String.eqb_eq in Hyid.
  eexists. split; [reflexivity |]. cbn. split; [exact Hyid | split; reflexivity].
Qed.

(** ** Chunk ids written by the ingestion *)

Lemma append_assoc_str (s t u : string) :
  String.append (String.append s t) u = String.append s (String.append t u).
Proof. induction s as [| ch s IH]; cbn; [reflexivity | rewrite IH; reflexivity]. Qed.

Lemma list_ascii_append (s t : string) :
  list_ascii_of_string (String.append s t) =
  list_ascii_of_string s ++ list_ascii_of_string t.
Proof. induction s as [| ch s IH]; cbn; [reflexivity | rewrite IH; reflexivity]. Qed.

Lemma digits_of_app (fuel n : nat) (acc : string) :
  digits_of fuel n acc = String.append (digits_of fuel n EmptyString) acc.
Proof.
  revert n acc. induction fuel as [| f IH]; intros n acc; cbn [digits_of]; [reflexivity |].
  destruct (n <? 10); [reflexivity |].
  rewrite (IH (n / 10) (String _ acc)), (IH (n / 10) (String _ EmptyString)).
  rewrite append_assoc_str. reflexivity.
Qed.

Lemma digits_of_fuel (f1 f2 n : nat) (acc : string) :
  n < f1 -> n < f2 -> digits_of f1 n acc = digits_of f2 n acc.
Proof.
  revert f2 n acc. induction f1 as [| f1 IH]; intros [| f2] n acc H1 H2; try lia.
  cbn [digits_of]. destruct (n <? 10) eqn:E; [reflexivity |].
  apply Nat.ltb_ge in E.
  assert (Hd : n / 10 < n) by (apply Nat.div_lt; lia).
  apply IH; lia.
Qed.

Lemma string_of_nat_small (n : nat) :
  n < 10 -> string_of_nat n = String (ascii_of_nat (48 + n mod 10)) EmptyString.
Proof.
  intros H. unfold string_of_nat. cbn [digits_of].
  apply Nat.ltb_lt in H. rewrite H. reflexivity.
Qed.

Lemma string_of_nat_large (n : nat) :
  10 <= n ->
  string_of_nat n =
  String.append (string_of_nat (n / 10))
    (String (ascii_of_nat (48 + n mod 10)) EmptyString).
Proof.
  intros H. unfold string_of_nat at 1. cbn [digits_of].
  destruct (n <? 10) eqn:E; [apply Nat.ltb_lt in E; lia |].
  rewrite digits_of_app. f_equal.
  unfold string_of_nat. apply digits_of_fuel; [| lia].
  apply Nat.div_lt; lia.
Qed.

Lemma string_of_nat_length (n : nat) : 1 <= String.length (string_of_nat n).
Proof.
  destruct (Nat.lt_ge_cases n 10) as [H | H].
  - rewrite string_of_nat_small by exact H. cbn. lia.
  - rewrite string_of_nat_large by exact H. rewrite length_append. cbn. lia.
Qed.

Lemma digit_char_inj (a b : nat) :
  ascii_of_nat (48 + a mod 10) = ascii_of_nat (48 + b mod 10) -> a mod 10 = b mod 10.
Proof.
  intros H. apply (f_equal nat_of_ascii) in H.
  assert (Ha : a mod 10 < 10) by (apply Nat.mod_upper_bound; lia).
  assert (Hb : b mod 10 < 10) by (apply Nat.mod_upper_bound; lia).
  rewrite !nat_ascii_embedding in H by lia. lia.
Qed.

(** The decimal rendering is injective. *)
Lemma string_of_nat_inj (n m : nat) : string_of_nat n = string_of_nat m -> n = m.
Proof.
  revert m. induction n as [n IH] using lt_wf_ind. intros m Heq.
  destruct (Nat.lt_ge_cases n 10) as [Hn | Hn];
    destruct (Nat.lt_ge_cases m 10) as [Hm | Hm].
  - rewrite !string_of_nat_small in Heq by assumption.
    injection Heq as Hc. apply digit_char_inj in Hc.
    rewrite !Nat.mod_small in Hc by assumption. exact Hc.
  - rewrite (string_of_nat_small n) in Heq by exact Hn.
    rewrite (string_of_nat_large m) in Heq by exact Hm.
    apply (f_equal String.length) in Heq. rewrite length_append in Heq.
    pose proof (string_of_nat_length (m / 10)). cbn [String.length] in Heq. lia.
  - rewrite (string_of_nat_large n) in Heq by exact Hn.
    rewrite (string_of_nat_small m) in Heq by exact Hm.
    apply (f_equal String.length) in Heq. rewrite length_append in Heq.
    pose proof (string_of_nat_length (n / 10)). cbn [String.length] in Heq. lia.
  - rewrite (string_of_nat_large n), (string_of_nat_large m) in Heq by assumption.
    apply (f_equal list_ascii_of_string) in Heq. rewrite !list_ascii_append in Heq.
    cbn [list_ascii_of_string] in Heq. apply app_inj_tail in Heq.
    destruct Heq as [Hq Hc]. apply digit_char_inj in Hc.
    apply (f_equal string_of_list_ascii) in Hq.
    rewrite !string_of_list_ascii_of_string in Hq.
    apply IH in Hq; [| apply Nat.div_lt; lia].
    rewrite (Nat.div_mod n 10), (Nat.div_mod m 10) by lia. lia.
Qed.

Lemma append_inj_l (p s t : string) :
  String.append p s = String.append p t -> s = t.
Proof.
  induction p as [| ch p IH]; cbn [String.append]; [exact (fun H => H) |].
  intros H. injection H as H. exact (IH H).
Qed.

Lemma chunk_name_inj (i j : nat) :
  String.append "chunk-" (string_of_nat i) = String.append "chunk-" (string_of_nat j) ->
  i = j.
Proof. intros H. apply string_of_nat_inj. exact (append_inj_l _ _ _ H). Qed.

Lemma embed_all_spec (embed : string -> option (list Q)) (pieces : list string)
    (idx : nat) (vs : list chunk) :
  embed_all embed pieces idx = Some vs ->
  map ctext vs = pieces /\
  map cid vs = map (fun i => String.append "chunk-" (string_of_nat i))
                 (seq idx (length pieces)).
Proof.
  revert idx vs. induction pieces as [| p ps IH]; intros idx vs; cbn [embed_all].
  - intros H. injection H as <-. split; reflexivity.
  - destruct (embed p) as [v |]; [| discriminate].
    destruct (embed_all embed ps (S idx)) as [rest |] eqn:E; [| discriminate].
    intros H. injection H as <-. destruct (IH (S idx) rest E) as [H1 H2].
    cbn [map ctext cid length seq]. rewrite H1, H2. split; reflexivity.
Qed.

Lemma find_chunk_name (vs : list chunk) (s i : nat) :
  map cid vs = map (fun i => String.append "chunk-" (string_of_nat i))
                 (seq s (length vs)) ->
  s <= i -> i < s + length vs ->
  find (fun emb => String.eqb (cid emb) (String.append "chunk-" (string_of_nat i))) vs =
  nth_error vs (i - s).
Proof.
  revert s. induction vs as [| v vs IH]; intros s Hids Hlo Hhi; cbn [length] in *; [lia |].
  cbn [map seq] in Hids.
  pose proof (f_equal (hd EmptyString) Hids) as Hv.
  pose proof (f_equal (@tl string) Hids) as Hids'. clear Hids.
  cbn [hd tl] in Hv, Hids'. rename Hids' into Hids.
  cbn [find]. rewrite Hv.
  destruct (String.eqb (String.append "chunk-" (string_of_nat s))
              (String.append "chunk-" (string_of_nat i))) eqn:E.
  - apply String.eqb_eq, chunk_name_inj in E. subst i.
    rewrite Nat.sub_diag. reflexivity.
  - assert (Hne : s <> i) by (intros ->; rewrite String.eqb_refl in E; discriminate).
    rewrite (IH (S s) Hids) by lia.
    replace (i - s) with (S (i - S s)) by lia. reflexivity.
Qed.

(** ** Ingestion *)

(** When [ingestPDF] returns, the cache holds the new manual under
    [manualId] with the given info: one stored chunk per piece of
    [chunkText text], in order, with the ids [chunk-0], [chunk-1], ...;
    the result reports that id, that info and that number of chunks. *)
Theorem ingestPDF_stores (embed : string -> option (list Q)) (text : string)
    (manualId : string) (manualInfo : manual_info) (copy_ok save_ok : bool)
    (c : cache_t) (r : ingest_result) :
  fst (ingestPDF embed text manualId manualInfo copy_ok save_ok c) = Some r ->
  res_id r = manualId /\ res_info r = manualInfo /\
  exists vs,
    lookup_manual (snd (ingestPDF embed text manualId manualInfo copy_ok save_ok c))
      manualId = Some (mkManual vs manualInfo) /\
    map ctext vs = chunkText text /\
    map cid vs = map (fun i => String.append "chunk-" (string_of_nat i))
                   (seq 0 (length vs)) /\
    res_chunks r = length vs.
Proof.
  unfold ingestPDF.
  destruct (embed_all embed (chunkText text) 0) as [vs |] eqn:E; cbn [fst snd];
    [| discriminate].
  destruct copy_ok; cbn [fst snd]; [| discriminate].
  destruct save_ok; cbn [fst snd]; [| discriminate].
  intros H. injection H as <-. cbn [res_id res_info res_chunks].
  destruct (embed_all_spec _ _ _ _ E) as [Ht Hid].
  assert (Hlen : length vs = length (chunkText text))
    by (rewrite <- Ht, length_map; reflexivity).
  split; [reflexivity | split; [reflexivity |]].
  exists vs. split.
  - unfold lookup_manual, upsert. cbn [manuals].
    rewrite assoc_get_set, String.eqb_refl. reflexivity.
  - split; [exact Ht |]. rewrite Hlen. split; [exact Hid | reflexivity].
Qed.

(** Whatever its outcome, [ingestPDF] leaves every other manual of the
    cache as it was. *)
Theorem ingestPDF_other_manuals (embed : string -> option (list Q)) (text : string)
    (manualId : string) (manualInfo : manual_info) (copy_ok save_ok : bool)
    (c : cache_t) (k : string) :
  k <> manualId ->
  lookup_manual (snd (ingestPDF embed text manualId manualInfo copy_ok save_ok c)) k =
  lookup_manual c k.
Proof.
  intros Hk. unfold ingestPDF.
  destruct (embed_all embed (chunkText text) 0) as [vs |]; cbn [snd]; [| reflexivity].
  destruct copy_ok; [| reflexivity].
  assert (H : lookup_manual (upsert vs manualId manualInfo c) k = lookup_manual c k).
  { unfold lookup_manual, upsert. cbn [manuals]. rewrite assoc_get_set.
    destruct (String.eqb k manualId) eqn:E.
    - apply String.eqb_eq in E. contradiction.
    - destruct (manuals c); reflexivity. }
  destruct save_ok; exact H.
Qed.

(** After a successful ingestion, [getChunkMetadata(manualId, "chunk-i")]
    finds the [i]-th piece of the text for every [i] below the reported
    number of chunks: the ids written are distinct. *)
Theorem ingestPDF_chunks_resolve (embed : string -> option (list Q)) (text : string)
    (manualId : string) (manualInfo : manual_info) (copy_ok save_ok : bool)
    (c : cache_t) (r : ingest_result) (i : nat) :
  fst (ingestPDF embed text manualId manualInfo copy_ok save_ok c) = Some r ->
  i < res_chunks r ->
  getChunkMetadata (snd (ingestPDF embed text manualId manualInfo copy_ok save_ok c))
    manualId (String.append "chunk-" (string_of_nat i)) =
  Some (mkMeta (String.append "chunk-" (string_of_nat i))
          (preview (nth i (chunkText text) EmptyString)) manualId manualInfo).
Proof.
  intros Hr Hi.
  destruct (ingestPDF_stores _ _ _ _ _ _ _ _ Hr) as (_ & _ & vs & Hm & Ht & Hid & Hn).
  unfold getChunkMetadata. rewrite Hm. cbn [embeddings info].
  rewrite Hn in Hi.
  rewrite (find_chunk_name vs 0 i Hid) by lia. rewrite Nat.sub_0_r.
  destruct (nth_error vs i) as [ch |] eqn:Hch.
  - assert (Hc : cid ch = String.append "chunk-" (string_of_nat i)).
    { pose proof (map_nth_error cid i vs Hch) as H1.
      rewrite Hid, nth_error_map, nth_error_seq in H1.
      assert (Hlt : (i <? length vs) = true) by (apply Nat.ltb_lt; lia).
      rewrite Hlt in H1. cbn [option_map Nat.add] in H1. congruence. }
    assert (Ht' : nth i (chunkText text) EmptyString = ctext ch).
    { rewrite <- Ht. apply nth_error_nth. rewrite nth_error_map, Hch. reflexivity. }
    rewrite Hc, Ht'. reflexivity.
  - apply nth_error_None in Hch. lia.
Qed.

Lemma embed_all_vectors (embed : string -> option (list Q)) (pieces : list string)
    (idx : nat) (vs : list chunk) :
  embed_all embed pieces idx = Some vs -> forall ch, In ch vs -> vector ch = [].
Proof.
  revert idx vs. induction pieces as [| p ps IH]; intros idx vs; cbn [embed_all].
  - intros H. injection H as <-. intros ch [].
  - destruct (embed p) as [v |]; [| discriminate].
    destruct (embed_all embed ps (S idx)) as [rest |] eqn:E; [| discriminate].
    intros H. injection H as <-. intros ch [<- | Hin]; [reflexivity |].
    exact (IH (S idx) rest E ch Hin).
Qed.

Lemma cosine_empty_nan (sqrt : Q -> Q) (a : list Q) :
  a <> [] -> cosine sqrt a [] = NaN.
Proof.
  intros Ha. unfold cosine.
  destruct (fold_left (cosine_step a []) (seq 0 (length a)) (Fin 0, Fin 0, Fin 0))
    as [[dot na] nb] eqn:E.
  assert (Hnb : nb = NaN).
  { change nb with (snd (dot, na, nb)). rewrite <- E.
    apply cosine_fold_nan. exists 0. split; [| reflexivity].
    apply in_seq. destruct a; [contradiction | cbn; lia]. }
  subst nb. cbn [num_sqrt]. destruct (num_sqrt sqrt na); destruct dot; reflexivity.
Qed.

(** Since the stored vector is the embedding object and not its floats,
    every chunk [ingestPDF] stores scores [NaN] against any non-empty
    query: none of them passes the [0.4] threshold. *)
Theorem ingested_chunks_score_nan (embed : string -> option (list Q)) (text : string)
    (manualId : string) (manualInfo : manual_info) (copy_ok save_ok : bool)
    (c : cache_t) (r : ingest_result) (sqrt : Q -> Q) (queryVec : list Q) :
  fst (ingestPDF embed text manualId manualInfo copy_ok save_ok c) = Some r ->
  queryVec <> [] ->
  exists m,
    lookup_manual (snd (ingestPDF embed text manualId manualInfo copy_ok save_ok c))
      manualId = Some m /\
    length (embeddings m) = res_chunks r /\
    forall ch, In ch (embeddings m) ->
      cosine sqrt queryVec (vector ch) = NaN /\
      above_threshold (cosine sqrt queryVec (vector ch)) = false.
Proof.
  intros Hr Hq. revert Hr. unfold ingestPDF.
  destruct (embed_all embed (chunkText text) 0) as [vs |] eqn:E; cbn [fst snd];
    [| discriminate].
  destruct copy_ok; cbn [fst snd]; [| discriminate].
  destruct save_ok; cbn [fst snd]; [| discriminate].
  intros H. injection H as <-. cbn [res_chunks].
  destruct (embed_all_spec _ _ _ _ E) as [Ht _].
  exists (mkManual vs manualInfo). split.
  - unfold lookup_manual, upsert. cbn [manuals].
    rewrite assoc_get_set, String.eqb_refl. reflexivity.
  - split; [cbn [embeddings]; rewrite <- Ht, length_map; reflexivity |].
    intros ch Hch. rewrite (embed_all_vectors _ _ _ _ E ch Hch), cosine_empty_nan by exact Hq.
    split; reflexivity.
Qed.

(** ** The second and third versions of the search *)

Lemma insert_by_map {A B : Type} (cmpA : A -> A -> num) (cmpB : B -> B -> num)
    (f : A -> B) (x : A) (l : list A) :
  (forall a b, cmpB (f a) (f b) = cmpA a b) ->
  map f (insert_by cmpA x l) = insert_by cmpB (f x) (map f l).
Proof.
  intros Hc. induction l as [| e l IH]; cbn [insert_by map]; [reflexivity |].
  rewrite Hc. destruct (sort_after (cmpA e x)); cbn [map]; [reflexivity |].
  rewrite IH. reflexivity.
Qed.

Lemma js_sort_map {A B : Type} (cmpA : A -> A -> num) (cmpB : B -> B -> num)
    (f : A -> B) (l : list A) :
  (forall a b, cmpB (f a) (f b) = cmpA a b) ->
  map f (js_sort cmpA l) = js_sort cmpB (map f l).
Proof.
  intros Hc. unfold js_sort.
  assert (H : forall acc, map f (fold_left (fun acc x => insert_by cmpA x acc) l acc) =
                          fold_left (fun acc x => insert_by cmpB x acc) (map f l) (map f acc)).
  { induction l as [| x l IH]; intros acc; cbn [fold_left map]; [reflexivity |].
    rewrite IH, (insert_by_map cmpA cmpB f x acc Hc). reflexivity. }
  exact (H []).
Qed.

Lemma slice0_map {A B : Type} (f : A -> B) (l : list A) (k : Z) :
  map f (slice0 l k) = slice0 (map f l) k.
Proof. unfold slice0. rewrite length_map. destruct (k <? 0)%Z; symmetry; apply firstn_map. Qed.

Lemma slice0_length {A : Type} (l : list A) (k : Z) :
  (0 <= k)%Z -> length (slice0 l k) = Nat.min (Z.to_nat k) (length l).
Proof.
  intros Hk. unfold slice0. destruct (k <? 0)%Z eqn:E; [apply Z.ltb_lt in E; lia |].
  apply length_firstn.
Qed.

Lemma scan_chunks_all_drop (sqrt : Q -> Q) (queryVec : list Q) (mid : string)
    (mi : manual_info) (cs : list chunk) (idx : nat) :
  map drop_chunkId (scan_chunks keep_all sqrt queryVec mid mi cs idx) =
  map (fun obj => mkResult2 (ctext obj) (cosine sqrt queryVec (vector obj)) mid mi) cs.
Proof.
  revert idx. induction cs as [| ch cs IH]; intros idx; [reflexivity |].
  cbn [scan_chunks]. unfold keep_all at 1. cbn [map]. rewrite IH. reflexivity.
Qed.

Lemma scan_all_drop (sqrt : Q -> Q) (queryVec : list Q) (ms : list (string * manual)) :
  map drop_chunkId (scan keep_all sqrt queryVec ms) = scan2 sqrt queryVec ms.
Proof.
  induction ms as [| [mid m] ms IH]; [reflexivity |].
  unfold scan, scan2 in *. cbn [flat_map]. rewrite map_app, IH, scan_chunks_all_drop.
  reflexivity.
Qed.

(** When no chunk scores above 0.4, the first version of the search
    returns the same texts, scores, manual ids and infos, in the same
    order, as the second version, which has no threshold. *)
Theorem search_fallback_matches_v2 (sqrt : Q -> Q) (queryVec : list Q) (topK : Z)
    (c : cache_t) :
  scan above_threshold sqrt queryVec (manual_list c) = [] ->
  map drop_chunkId (similaritySearch sqrt queryVec topK c) =
  similaritySearch_v2 sqrt queryVec topK c.
Proof.
  unfold similaritySearch, similaritySearch_v2, manual_list.
  destruct (manuals c) as [[| p ms] |]; [reflexivity | | reflexivity].
  intros Hnone. unfold candidates. rewrite Hnone.
  rewrite slice0_map, (js_sort_map by_score_desc by_score_desc2 drop_chunkId)
    by reflexivity.
  rewrite scan_all_drop. reflexivity.
Qed.

Lemma search_fallback_matches_v2_witness :
  let c := store_of [[0%Q; 1%Q]; [0%Q; 2%Q]] in
  scan above_threshold Math_sqrt [1%Q; 0%Q] (manual_list c) = [] /\
  map drop_chunkId (similaritySearch Math_sqrt [1%Q; 0%Q] 4 c) =
  similaritySearch_v2 Math_sqrt [1%Q; 0%Q] 4 c.
Proof.
  intros c.
  assert (H : scan above_threshold Math_sqrt [1%Q; 0%Q] (manual_list c) = [])
    by (vm_compute; reflexivity).
  split; [exact H | exact (search_fallback_matches_v2 Math_sqrt [1%Q; 0%Q] 4 c H)].
Defined.

(** For [topK >= 0], the second version returns exactly
    [min(topK, n)] results, [n] being the number of stored chunks. *)
Theorem search_v2_length (sqrt : Q -> Q) (queryVec : list Q) (topK : Z) (c : cache_t) :
  (0 <= topK)%Z ->
  length (similaritySearch_v2 sqrt queryVec topK c) =
  Nat.min (Z.to_nat topK) (length (verifyVectorStore c)).
Proof.
  intros Hk. unfold similaritySearch_v2, verifyVectorStore.
  destruct (manuals c) as [[| p ms] |]; cbn [fold_left length];
    [lia | | lia].
  rewrite slice0_length, js_sort_length by exact Hk. f_equal.
  rewrite <- scan_all_drop, length_map.
  pose proof (scan_all_length sqrt queryVec (mkCache (Some (p :: ms)))) as H.
  exact H.
Qed.

Lemma search_v2_length_witness :
  (0 <= 1)%Z /\
  length (similaritySearch_v2 Math_sqrt [1%Q] 1 (store_of [[1%Q]; [2%Q]])) =
  Nat.min (Z.to_nat 1) (length (verifyVectorStore (store_of [[1%Q]; [2%Q]]))).
Proof.
  assert (H : (0 <= 1)%Z) by lia.
  split; [exact H | exact (search_v2_length Math_sqrt [1%Q] 1 _ H)].
Defined.

(** For [topK >= 0], the third version returns exactly [min(topK, n)]
    texts of an [n]-chunk cache, each the text of a stored chunk. *)
Theorem search_v3_length_texts (sqrt : Q -> Q) (queryVec : list Q) (topK : Z)
    (cache : list chunk) :
  (0 <= topK)%Z ->
  length (similaritySearch_v3 sqrt queryVec topK cache) =
    Nat.min (Z.to_nat topK) (length cache) /\
  incl (similaritySearch_v3 sqrt queryVec topK cache) (map ctext cache).
Proof.
  intros Hk. unfold similaritySearch_v3.
  destruct cache as [| ch cs]; [split; [cbn; lia | intros x []] |].
  set (cache := ch :: cs).
  set (scored := map (fun obj => mkScored3 (ctext obj) (cosine sqrt queryVec (vector obj)))
                   cache).
  split.
  - rewrite length_map, slice0_length, js_sort_length by exact Hk.
    unfold scored. rewrite length_map. reflexivity.
  - intros x Hx. apply in_map_iff in Hx. destruct Hx as (s & <- & Hs).
    apply in_slice0 in Hs. apply (Permutation_in _ (js_sort_perm _ _)) in Hs.
    unfold scored in Hs. apply in_map_iff in Hs. destruct Hs as (obj & <- & Hobj).
    cbn [text3]. apply in_map. exact Hobj.
Qed.

Lemma search_v3_length_texts_witness :
  (0 <= 1)%Z /\
  length (similaritySearch_v3 Math_sqrt [1%Q] 1 [chunk_of "a" [1%Q]; chunk_of "b" [2%Q]]) =
    Nat.min (Z.to_nat 1) (length [chunk_of "a" [1%Q]; chunk_of "b" [2%Q]]) /\
  incl (similaritySearch_v3 Math_sqrt [1%Q] 1 [chunk_of "a" [1%Q]; chunk_of "b" [2%Q]])
    (map ctext [chunk_of "a" [1%Q]; chunk_of "b" [2%Q]]).
Proof.
  assert (H : (0 <= 1)%Z) by lia.
  split; [exact H | exact (search_v3_length_texts Math_sqrt [1%Q] 1 _ H)].
Defined.

(** ** Statistics of the third version *)

Lemma round_div_bounds (T : Z) (p : positive) :
  let z := Math_round (inject_Z T / inject_Z (Zpos p)) in
  ((2 * z - 1) * Zpos p <= 2 * T < (2 * z + 1) * Zpos p)%Z.
Proof.
  intros z.
  assert (Hz : z = ((T * 1 * 2 + 1 * Z.pos p) / (Z.pos p * 2))%Z).
  { unfold z, Math_round, Qfloor, Qdiv, Qinv, Qmult, Qplus, inject_Z.
    cbn -[Z.mul Z.add Z.div]. rewrite Pos2Z.inj_mul. reflexivity. }
  rewrite Hz.
  set (a := (T * 1 * 2 + 1 * Z.pos p)%Z).
  assert (Hb : (0 < Z.pos p * 2)%Z) by lia.
  pose proof (Z.div_mod a (Z.pos p * 2) ltac:(lia)) as Hd.
  pose proof (Z.mod_pos_bound a (Z.pos p * 2) Hb) as Hm.
  set (q := (a / (Z.pos p * 2))%Z) in *.
  set (r := (a mod (Z.pos p * 2))%Z) in *.
  unfold a in Hd. split; nia.
Qed.

Lemma fold_length_sum (cache : list chunk) (acc : nat) :
  fold_left (fun acc ch => acc + String.length (ctext ch)) cache acc =
  acc + list_sum (map (fun ch => String.length (ctext ch)) cache).
Proof.
  revert acc. induction cache as [| ch cs IH]; intros acc; simpl; [lia |].
  rewrite IH. lia.
Qed.

(** For a non-empty cache of [n] chunks whose texts have [T] characters
    in all, the statistics report [n] chunks, an average length [a] that
    is [T / n] rounded to the nearest integer ([2na - n <= 2T < 2na + n]),
    a token estimate [t] that is [T / 4] rounded ([4t - 2 <= T < 4t + 2]),
    and the preview of the first chunk. *)
Theorem stats_rounding (cache : list chunk) (mtime : option string) :
  cache <> [] ->
  let n := Z.of_nat (length cache) in
  let T := Z.of_nat (list_sum (map (fun ch => String.length (ctext ch)) cache)) in
  let st := getVectorStoreStats cache mtime in
  totalChunks st = length cache /\
  (2 * n * averageChunkLength st - n <= 2 * T < 2 * n * averageChunkLength st + n)%Z /\
  (4 * totalTokensEstimated st - 2 <= T < 4 * totalTokensEstimated st + 2)%Z /\
  firstChunkPreview st = preview (ctext (hd (mkChunk "" "" []) cache)).
Proof.
  intros Hne n T st.
  destruct cache as [| ch cs]; [contradiction |].
  unfold st, getVectorStoreStats. cbn [length Nat.ltb Nat.leb].
  cbn [totalChunks averageChunkLength totalTokensEstimated firstChunkPreview].
  rewrite fold_length_sum. cbn [Nat.add].
  fold T. unfold n. cbn [length]. rewrite Nat2Z.inj_succ.
  pose proof (round_div_bounds T (Pos.of_succ_nat (length cs))) as H1.
  pose proof (round_div_bounds T 4) as H2.
  rewrite Zpos_P_of_succ_nat in H1. cbn zeta in H1, H2.
  split; [reflexivity |]. split; [| split].
  - split; nia.
  - change (inject_Z (Z.pos 4)) with 4%Q in H2. lia.
  - reflexivity.
Qed.

(** ** The earlier ingestion over the third version *)

Lemma chunkText_nonempty (text : string) : chunkText text <> [].
Proof.
  unfold chunkText.
  pose proof (split_ws_go_nonempty text [] false) as H. fold (split_ws text) in H.
  destruct (split_ws text) as [| w ws]; [contradiction |].
  cbn [length chunk_loop]. discriminate.
Qed.

(** When the earlier [ingestPDF] returns a count [n], [n >= 1], the
    cache holds exactly the pieces of [chunkText text] in order, and the
    statistics report [n] chunks. *)
Theorem ingestPDF_v0_overwrites (embed : string -> option (list Q)) (text : string)
    (save_ok : bool) (cache : list chunk) (n : nat) (mtime : option string) :
  fst (ingestPDF_v0 embed text save_ok cache) = Some n ->
  1 <= n /\
  map ctext (snd (ingestPDF_v0 embed text save_ok cache)) = chunkText text /\
  totalChunks (getVectorStoreStats (snd (ingestPDF_v0 embed text save_ok cache)) mtime) = n.
Proof.
  unfold ingestPDF_v0.
  destruct (embed_all embed (chunkText text) 0) as [vs |] eqn:E; cbn [fst snd];
    [| discriminate].
  destruct save_ok; [| discriminate]. intros H. injection H as <-.
  destruct (embed_all_spec _ _ _ _ E) as [Ht _].
  unfold upsert_v3.
  assert (Hlen : length vs = length (chunkText text))
    by (rewrite <- Ht, length_map; reflexivity).
  split; [| split; [exact Ht |]].
  - pose proof (chunkText_nonempty text). destruct (chunkText text); [contradiction |].
    cbn. lia.
  - unfold getVectorStoreStats. destruct (0 <? length vs); exact Hlen.
Qed.

(** ** The [/chat] route *)

Lemma chat_fold_proj (rs l : list result) (st : list (string * nat) * option top_manual * nat) :
  chat_proj (fold_left (chat_step rs) l st) =
  fold_left attribution_step (map manualId l) (chat_proj st).
Proof.
  revert st. induction l as [| r l IH]; intros st; [reflexivity |].
  cbn [fold_left map]. rewrite IH. f_equal.
  destruct st as [[counts top] cnt]. unfold chat_step, attribution_step. cbn [chat_proj].
  destruct (cnt <? _); reflexivity.
Qed.

Lemma chat_fold_top (rs l : list result) (st : list (string * nat) * option top_manual * nat) :
  incl l rs ->
  (let '(_, top, _) := st in top_ok rs top) ->
  let '(_, top, _) := fold_left (chat_step rs) l st in top_ok rs top.
Proof.
  revert st. induction l as [| r l IH]; intros st Hincl Hst; [exact Hst |].
  cbn [fold_left]. apply IH; [intros x Hx; apply Hincl; right; exact Hx |].
  destruct st as [[counts top] cnt]. unfold chat_step.
  destruct (cnt <? _); [| exact Hst].
  cbn [top_ok top_id chunkIds top_info]. split; [reflexivity |].
  apply in_map_iff. exists r. split; [reflexivity |]. apply Hincl. left. reflexivity.
Qed.

Lemma filter_count (rs : list result) (t : string) :
  length (filter (fun r => String.eqb (manualId r) t) rs) = count_id t (map manualId rs).
Proof.
  unfold count_id. induction rs as [| r rs IH]; [reflexivity |].
  cbn [filter map]. rewrite String.eqb_sym.
  destruct (String.eqb t (manualId r)); cbn [length]; rewrite IH; reflexivity.
Qed.



Lemma search_nil_iff (sqrt : Q -> Q) (queryVec : list Q) (c : cache_t) :
  similaritySearch sqrt queryVec 4 c = [] <-> verifyVectorStore c = [].
Proof.
  pose proof (scan_all_length sqrt queryVec c) as Hlen.
  pose proof (scan_filter above_threshold sqrt queryVec (manual_list c)) as Hf.
  unfold similaritySearch, verifyVectorStore.
  unfold manual_list, verifyVectorStore in Hlen, Hf.
  destruct (manuals c) as [[| p ms] |]; [| | cbn; split; reflexivity].
  - cbn. split; reflexivity.
  - set (ms' := p :: ms) in *.
    assert (Hc : candidates sqrt queryVec ms' = [] <->
                 scan keep_all sqrt queryVec ms' = []).
    { unfold candidates. rewrite Hf.
      destruct (scan keep_all sqrt queryVec ms') as [| r l]; [cbn; tauto |].
      destruct (filter (fun r => above_threshold (score r)) (r :: l));
        split; intros H; first [exact H | discriminate]. }
    assert (Hv : fold_left (fun acc '(_, m) => acc ++ embeddings m) ms' [] = [] <->
                 scan keep_all sqrt queryVec ms' = []).
    { rewrite <- (length_zero_iff_nil (fold_left _ ms' [])), <- Hlen.
      apply length_zero_iff_nil. }
    rewrite Hv, <- Hc.
    unfold slice0. cbn [Z.ltb Z.compare]. cbn [Z.to_nat Pos.to_nat].
    split.
    + intros H. pose proof (js_sort_perm by_score_desc (candidates sqrt queryVec ms')) as Hp.
      destruct (js_sort by_score_desc (candidates sqrt queryVec ms')) as [| x l];
        [exact (Permutation_nil Hp) | cbn in H; discriminate].
    + intros H. rewrite H. reflexivity.
Qed.


(** ** Links appended to the answer *)

Lemma prefix_append (t u : string) : prefix t (String.append t u) = true.
Proof.
  induction t as [| ch t IH]; cbn [String.append prefix]; [destruct u; reflexivity |].
  destruct (ascii_dec ch ch); [exact IH | contradiction].
Qed.

Lemma includes_prefix (s t : string) : prefix t s = true -> includes s t = true.
Proof. destruct s; cbn [includes]; intros ->; reflexivity. Qed.

Lemma includes_append_r (s u t : string) :
  includes u t = true -> includes (String.append s u) t = true.
Proof.
  induction s as [| ch s IH]; cbn [String.append]; [exact (fun H => H) |].
  intros H. cbn [includes]. rewrite (IH H). apply orb_true_r.
Qed.

Lemma prefix_append_l (t s u : string) :
  prefix t s = true -> prefix t (String.append s u) = true.
Proof.
  revert s. induction t as [| ch t IH]; intros s; [destruct s, u; reflexivity |].
  destruct s as [| ch' s]; cbn [String.append prefix]; [discriminate |].
  destruct (ascii_dec ch ch'); [apply IH | discriminate].
Qed.

Lemma includes_append_l (s u t : string) :
  includes s t = true -> includes (String.append s u) t = true.
Proof.
  induction s as [| ch s IH]; cbn [String.append includes].
  - intros H. apply includes_prefix. apply (prefix_append_l t EmptyString u H).
  - intros H. apply orb_true_iff in H. destruct H as [H | H].
    + pose proof (prefix_append_l t (String ch s) u H) as Hp.
      cbn [String.append] in Hp. rewrite Hp. reflexivity.
    + rewrite (IH H). apply orb_true_r.
Qed.

(** The answer returned by the route always contains a WhatsApp contact
    link, and it names a manual ("Ver manual:") whenever a [topManual]
    was found, whatever text the model produced and whether the manual
    is remote or local. *)
Theorem answer_links (isRemote : manual_info -> bool) (answer : string)
    (topManual : option top_manual) :
  includes (finalize_answer isRemote answer topManual) "WhatsApp" = true /\
  (topManual <> None ->
   includes (finalize_answer isRemote answer topManual) "Ver manual:" = true).
Proof.
  unfold finalize_answer.
  set (answer1 := match topManual with
                  | Some tm => _ | None => answer end).
  split.
  - destruct (includes answer1 "WhatsApp") eqn:E; [exact E |].
    apply includes_append_r. vm_compute. reflexivity.
  - intros Htm. destruct topManual as [tm |]; [| contradiction].
    assert (H1 : includes answer1 "Ver manual:" = true).
    { unfold answer1. destruct (includes answer "Ver manual:") eqn:E; [exact E |].
      apply includes_append_r. apply includes_append_r. apply includes_append_r.
      apply includes_append_r. apply includes_append_r.
      apply includes_append_l. vm_compute. reflexivity. }
    destruct (includes answer1 "WhatsApp"); [exact H1 |].
    apply includes_append_l. exact H1.
Qed.

(** ** [REMOTE_MANUALS] *)

Lemma parse_elems_arr (f : nat) (s : list ascii) (acc : list json) (v : json)
    (r : list ascii) :
  parse_elems f s acc = Some (v, r) -> exists l, v = JArr l.
Proof.
  revert s acc. induction f as [| f IH]; intros s acc; cbn [parse_elems]; [discriminate |].
  destruct (parse_value f s) as [[v0 r0] |]; [| discriminate].
  destruct (skip_ws r0) as [| a l]; [discriminate |].
  destruct a as [[] [] [] [] [] [] [] []]; try discriminate;
    first [ apply IH
          | intros H; injection H as <- _; eexists; reflexivity ].
Qed.

Lemma parse_bracket_arr (f : nat) (s : list ascii) (v : json) (r : list ascii) :
  parse_value f ("["%char :: s) = Some (v, r) -> exists l, v = JArr l.
Proof.
  destruct f as [| f]; cbn [parse_value]; [discriminate |].
  assert (Hsk : skip_ws ("["%char :: s) = "["%char :: s) by reflexivity.
  rewrite Hsk. cbv beta iota.
  destruct (skip_ws s) as [| a l]; [apply parse_elems_arr |].
  destruct a as [[] [] [] [] [] [] [] []]; cbv beta iota;
    first [ apply parse_elems_arr
          | intros H; injection H as <- _; eexists; reflexivity ].
Qed.

Lemma strip_to_bracket_shape (s : string) :
  strip_to_bracket s = EmptyString \/
  exists r, strip_to_bracket s = String "["%char r.
Proof.
  induction s as [| ch s IH]; cbn [strip_to_bracket]; [left; reflexivity |].
  destruct (Ascii.eqb ch "[") eqn:E; [| exact IH].
  apply Ascii.eqb_eq in E. subst ch. right. eexists. reflexivity.
Qed.

Lemma parse_stripped_arr (raw : string) (v : json) :
  JSON_parse (strip_to_bracket raw) = Some v -> exists l, v = JArr l.
Proof.
  intros E.
  destruct (strip_to_bracket_shape raw) as [H | [r H]]; rewrite H in E.
  - vm_compute in E. discriminate.
  - unfold JSON_parse in E. cbn [list_ascii_of_string length] in E.
    destruct (parse_value _ _) as [[v0 r0] |] eqn:Ep in E; [| discriminate].
    destruct (skip_ws r0); [| discriminate]. injection E as <-.
    exact (parse_bracket_arr _ _ _ _ Ep).
Qed.

(** [REMOTE_MANUALS] is always an array. It is empty when the variable is
    unset or empty. Otherwise the value is cut before its first ['['] and
    parsed: a parsed value is an array and is taken; when parsing fails,
    the six fallback manuals are taken. *)
Theorem remote_manuals_array (env : option string) :
  (exists l, remote_manuals env = JArr l) /\
  (env = None -> remote_manuals env = JArr []) /\
  (env = Some EmptyString -> remote_manuals env = JArr []) /\
  (forall raw, env = Some raw -> raw <> EmptyString ->
     (JSON_parse (strip_to_bracket raw) = None -> remote_manuals env = default_manuals) /\
     (forall v, JSON_parse (strip_to_bracket raw) = Some v ->
        (exists l, v = JArr l) /\ remote_manuals env = v)).
Proof.
  assert (Hcase : forall raw, raw <> EmptyString ->
     (JSON_parse (strip_to_bracket raw) = None -> remote_manuals (Some raw) = default_manuals) /\
     (forall v, JSON_parse (strip_to_bracket raw) = Some v ->
        (exists l, v = JArr l) /\ remote_manuals (Some raw) = v)).
  { intros raw Hne. unfold remote_manuals.
    destruct (String.eqb raw "") eqn:Er; [apply String.eqb_eq in Er; contradiction |].
    split; [intros -> ; reflexivity |].
    intros v Hv. destruct (parse_stripped_arr raw v Hv) as [l ->].
    split; [exists l; reflexivity | rewrite Hv; reflexivity]. }
  split; [| split; [intros ->; reflexivity | split; [intros ->; reflexivity |]]].
  - destruct env as [raw |]; [| eexists; reflexivity].
    destruct (String.eqb raw "") eqn:Er.
    + apply String.eqb_eq in Er. subst raw. eexists. reflexivity.
    + assert (Hne : raw <> EmptyString) by (intros ->; discriminate).
      destruct (Hcase raw Hne) as [Hnone Hsome].
      destruct (JSON_parse (strip_to_bracket raw)) as [v |] eqn:E.
      * destruct (Hsome v eq_refl) as [[l ->] ->]. eexists. reflexivity.
      * rewrite (Hnone eq_refl). eexists. reflexivity.
  - intros raw -> Hne. exact (Hcase raw Hne).
Qed.

Lemma strip_no_bracket (s : string) :
  ~ In "["%char (list_ascii_of_string s) -> strip_to_bracket s = EmptyString.
Proof.
  induction s as [| ch s IH]; cbn [strip_to_bracket list_ascii_of_string In];
    [reflexivity |].
  intros Hn. destruct (Ascii.eqb ch "[") eqn:E.
  - apply Ascii.eqb_eq in E. exfalso. apply Hn. left. exact E.
  - apply IH. intros H. apply Hn. right. exact H.
Qed.

(** A non-empty value without ['['] is stripped to the empty string by
    the loop; parsing it fails and the fallback list of six manuals is
    used. *)
Theorem remote_manuals_no_bracket (raw : string) :
  raw <> EmptyString ->
  ~ In "["%char (list_ascii_of_string raw) ->
  remote_manuals (Some raw) = default_manuals.
Proof.
  intros Hne Hn. unfold remote_manuals.
  destruct (String.eqb raw "") eqn:E;
    [apply String.eqb_eq in E; contradiction |].
  rewrite (strip_no_bracket raw Hn). reflexivity.
Qed.

Lemma remote_manuals_no_bracket_witness :
  "REMOTE_MANUALS"%string <> EmptyString /\
  ~ In "["%char (list_ascii_of_string "REMOTE_MANUALS") /\
  remote_manuals (Some "REMOTE_MANUALS"%string) = default_manuals.
Proof.
  assert (H1 : "REMOTE_MANUALS"%string <> EmptyString) by discriminate.
  assert (H2 : ~ In "["%char (list_ascii_of_string "REMOTE_MANUALS")).
  { cbn. intuition discriminate. }
  split; [exact H1 | split; [exact H2 |]].
  exact (remote_manuals_no_bracket _ H1 H2).
Defined.

(** ** File names of remote manuals *)

Lemma split_char_go_chars (sep : ascii) (s : string) (cur : list ascii) (w : string) :
  (forall ch, In ch cur -> ch <> sep) ->
  In w (split_char_go sep s cur) ->
  forall ch, In ch (list_ascii_of_string w) ->
  ch <> sep /\ (In ch cur \/ In ch (list_ascii_of_string s)).
Proof.
  revert cur. induction s as [| c s IH]; intros cur Hcur Hw ch Hch;
    cbn [split_char_go] in Hw.
  - destruct Hw as [<- | []].
    rewrite list_ascii_of_string_of_list_ascii, <- in_rev in Hch.
    split; [exact (Hcur ch Hch) | left; exact Hch].
  - cbn [list_ascii_of_string In].
    destruct (Ascii.eqb c sep) eqn:E.
    + destruct Hw as [<- | Hw].
      * rewrite list_ascii_of_string_of_list_ascii, <- in_rev in Hch.
        split; [exact (Hcur ch Hch) | left; exact Hch].
      * destruct (IH [] (fun _ H => match H with end) Hw ch Hch) as [Hs [[] | Hin]].
        split; [exact Hs | right; right; exact Hin].
    + assert (Hc : forall x, In x (c :: cur) -> x <> sep).
      { intros x [<- | Hx]; [| exact (Hcur x Hx)].
        intros ->. rewrite Ascii.eqb_refl in E. discriminate. }
      destruct (IH (c :: cur) Hc Hw ch Hch) as [Hs [[<- | Hin] | Hin]];
        split; try exact Hs; tauto.
Qed.

Lemma split_char_chars (sep : ascii) (s w : string) :
  In w (split_char sep s) ->
  forall ch, In ch (list_ascii_of_string w) ->
  ch <> sep /\ In ch (list_ascii_of_string s).
Proof.
  intros Hw ch Hch.
  destruct (split_char_go_chars sep s [] w (fun _ H => match H with end) Hw ch Hch)
    as [Hs [[] | Hin]].
  split; assumption.
Qed.

Lemma last_in_or {A : Type} (l : list A) (d : A) : In (last l d) l \/ last l d = d.
Proof.
  induction l as [| x l IH]; [right; reflexivity |].
  destruct l as [| y l]; [left; left; reflexivity |].
  destruct IH as [H | H]; [left; right; exact H | right; exact H].
Qed.

Lemma hd_in_or {A : Type} (l : list A) (d : A) : In (hd d l) l \/ hd d l = d.
Proof. destruct l; [right | left; left]; reflexivity. Qed.

Lemma js_or_nonempty (a b : string) : b <> EmptyString -> js_or a b <> EmptyString.
Proof.
  unfold js_or. destruct (String.eqb a "") eqn:E; [exact (fun H => H) |].
  intros _ ->. discriminate.
Qed.

(** The file name of a remote manual is never empty: it is the last
    [/]-segment of the URL cut at the first [?], taken from the URL and
    free of [/] and [?], or ["documento.pdf"]; so the title, which falls
    back to it, is never empty either. *)
Theorem remote_filename_title (url title0 metaTitle infoTitle : string) :
  let fn := remote_filename url in
  fn <> EmptyString /\
  ~ In "/"%char (list_ascii_of_string fn) /\
  ~ In "?"%char (list_ascii_of_string fn) /\
  (fn = "documento.pdf"%string \/
   forall ch, In ch (list_ascii_of_string fn) -> In ch (list_ascii_of_string url)) /\
  remote_title title0 metaTitle infoTitle fn <> EmptyString.
Proof.
  intros fn.
  assert (Hne : fn <> EmptyString).
  { apply js_or_nonempty. discriminate. }
  assert (Hsh : fn = "documento.pdf"%string \/
     forall ch, In ch (list_ascii_of_string fn) ->
       ch <> "/"%char /\ ch <> "?"%char /\ In ch (list_ascii_of_string url)).
  { unfold fn, remote_filename, js_or.
    set (seg := last (split_char "/" url) EmptyString).
    set (q := hd EmptyString (split_char "?" seg)).
    destruct (String.eqb q "") eqn:E; [left; reflexivity | right].
    intros ch Hch.
    destruct (hd_in_or (split_char "?" seg) EmptyString) as [Hq | Hq];
      fold q in Hq; [| rewrite Hq in Hch; destruct Hch].
    destruct (split_char_chars "?" seg q Hq ch Hch) as [Hq1 Hseg].
    destruct (last_in_or (split_char "/" url) EmptyString) as [Hs | Hs];
      fold seg in Hs; [| rewrite Hs in Hseg; destruct Hseg].
    destruct (split_char_chars "/" url seg Hs ch Hseg) as [Hs1 Hurl].
    tauto. }
  assert (Hdoc : forall ch, In ch (list_ascii_of_string "documento.pdf") ->
                 ch <> "/"%char /\ ch <> "?"%char).
  { cbn [list_ascii_of_string In]. intros ch Hch.
    repeat (destruct Hch as [<- | Hch]; [split; discriminate |]). destruct Hch. }
  split; [exact Hne |].
  split; [intros H; destruct Hsh as [-> | Hsh];
          [exact (proj1 (Hdoc _ H) eq_refl) | exact (proj1 (Hsh _ H) eq_refl)] |].
  split; [intros H; destruct Hsh as [-> | Hsh];
          [exact (proj2 (Hdoc _ H) eq_refl) | exact (proj1 (proj2 (Hsh _ H)) eq_refl)] |].
  split.
  - destruct Hsh as [-> | Hsh]; [left; reflexivity | right].
    intros ch Hch. exact (proj2 (proj2 (Hsh ch Hch))).
  - unfold remote_title. apply js_or_nonempty. exact Hne.
Qed.

(** ** Instances of the properties above *)

Lemma search_results_resolve_witness :
  let c := store_of [[1%Q]; [2%Q]] in
  let r := hd result_dummy (similaritySearch Math_sqrt [1%Q] 4 c) in
  NoDup (map fst (manual_list c)) /\
  (forall mid m ch, In (mid, m) (manual_list c) -> In ch (embeddings m) ->
     cid ch <> ""%string) /\
  In r (similaritySearch Math_sqrt [1%Q] 4 c) /\
  exists meta, getChunkMetadata c (manualId r) (chunkId r) = Some meta /\
    meta_id meta = chunkId r /\ meta_manualId meta = manualId r /\
    meta_manualInfo meta = manualInfo r.
Proof.
  intros c r.
  assert (H1 : NoDup (map fst (manual_list c))).
  { vm_compute. constructor; [intros [] | constructor]. }
  assert (H2 : forall mid m ch, In (mid, m) (manual_list c) -> In ch (embeddings m) ->
     cid ch <> ""%string).
  { intros mid m ch Hm Hch. vm_compute in Hm.
    destruct Hm as [Heq | []]. injection Heq as <- <-.
    cbn [embeddings map In] in Hch.
    destruct Hch as [<- | [<- | []]]; discriminate. }
  assert (H3 : In r (similaritySearch Math_sqrt [1%Q] 4 c)).
  { vm_compute. left. reflexivity. }
  split; [exact H1 | split; [exact H2 | split; [exact H3 |]]].
  exact (search_results_resolve Math_sqrt [1%Q] 4 c r H1 H2 H3).
Defined.

Lemma ingestPDF_stores_witness :
  let r := mkIngest "n" 1 info0 in
  fst (ingestPDF embed_one "a b" "n" info0 true true (store_of [[1%Q]])) = Some r /\
  res_id r = "n"%string /\ res_info r = info0 /\
  exists vs,
    lookup_manual (snd (ingestPDF embed_one "a b" "n" info0 true true (store_of [[1%Q]])))
      "n" = Some (mkManual vs info0) /\
    map ctext vs = chunkText "a b" /\
    map cid vs = map (fun i => String.append "chunk-" (string_of_nat i))
                   (seq 0 (length vs)) /\
    res_chunks r = length vs.
Proof.
  intros r.
  assert (H : fst (ingestPDF embed_one "a b" "n" info0 true true (store_of [[1%Q]]))
              = Some r) by (vm_compute; reflexivity).
  split; [exact H |].
  exact (ingestPDF_stores embed_one "a b" "n" info0 true true (store_of [[1%Q]]) r H).
Defined.

Lemma ingestPDF_other_manuals_witness :
  "m"%string <> "n"%string /\
  lookup_manual (snd (ingestPDF embed_one "a b" "n" info0 true true (store_of [[1%Q]]))) "m" =
  lookup_manual (store_of [[1%Q]]) "m".
Proof.
  assert (H : "m"%string <> "n"%string) by discriminate.
  split; [exact H |].
  exact (ingestPDF_other_manuals embed_one "a b" "n" info0 true true (store_of [[1%Q]])
           "m" H).
Defined.

Lemma ingestPDF_chunks_resolve_witness :
  let r := mkIngest "n" 1 info0 in
  fst (ingestPDF embed_one "a b" "n" info0 true true (store_of [[1%Q]])) = Some r /\
  0 < res_chunks r /\
  getChunkMetadata (snd (ingestPDF embed_one "a b" "n" info0 true true (store_of [[1%Q]])))
    "n" (String.append "chunk-" (string_of_nat 0)) =
  Some (mkMeta (String.append "chunk-" (string_of_nat 0))
          (preview (nth 0 (chunkText "a b") EmptyString)) "n" info0).
Proof.
  intros r.
  assert (H : fst (ingestPDF embed_one "a b" "n" info0 true true (store_of [[1%Q]]))
              = Some r) by (vm_compute; reflexivity).
  assert (Hi : 0 < res_chunks r) by (cbn; lia).
  split; [exact H | split; [exact Hi |]].
  exact (ingestPDF_chunks_resolve embed_one "a b" "n" info0 true true (store_of [[1%Q]])
           r 0 H Hi).
Defined.

Lemma ingested_chunks_score_nan_witness :
  let r := mkIngest "n" 1 info0 in
  fst (ingestPDF embed_one "a b" "n" info0 true true (store_of [[1%Q]])) = Some r /\
  [1%Q] <> [] /\
  exists m,
    lookup_manual (snd (ingestPDF embed_one "a b" "n" info0 true true (store_of [[1%Q]])))
      "n" = Some m /\
    length (embeddings m) = res_chunks r /\
    forall ch, In ch (embeddings m) ->
      cosine Math_sqrt [1%Q] (vector ch) = NaN /\
      above_threshold (cosine Math_sqrt [1%Q] (vector ch)) = false.
Proof.
  intros r.
  assert (H : fst (ingestPDF embed_one "a b" "n" info0 true true (store_of [[1%Q]]))
              = Some r) by (vm_compute; reflexivity).
  assert (Hq : [1%Q] <> []) by discriminate.
  split; [exact H | split; [exact Hq |]].
  exact (ingested_chunks_score_nan embed_one "a b" "n" info0 true true (store_of [[1%Q]])
           r Math_sqrt [1%Q] H Hq).
Defined.

Lemma stats_rounding_witness :
  let cache := [mkChunk "c0" "hello" [1%Q]; mkChunk "c1" "hi" [2%Q]] in
  cache <> [] /\
  let n := Z.of_nat (length cache) in
  let T := Z.of_nat (list_sum (map (fun ch => String.length (ctext ch)) cache)) in
  let st := getVectorStoreStats cache None in
  totalChunks st = length cache /\
  (2 * n * averageChunkLength st - n <= 2 * T < 2 * n * averageChunkLength st + n)%Z /\
  (4 * totalTokensEstimated st - 2 <= T < 4 * totalTokensEstimated st + 2)%Z /\
  firstChunkPreview st = preview (ctext (hd (mkChunk "" "" []) cache)).
Proof.
  intros cache.
  assert (H : cache <> []) by discriminate.
  split; [exact H |].
  exact (stats_rounding cache None H).
Defined.

Lemma ingestPDF_v0_overwrites_witness :
  fst (ingestPDF_v0 embed_one "a b" true [mkChunk "old" "old" [1%Q]]) = Some 1 /\
  1 <= 1 /\
  map ctext (snd (ingestPDF_v0 embed_one "a b" true [mkChunk "old" "old" [1%Q]])) =
    chunkText "a b" /\
  totalChunks (getVectorStoreStats
    (snd (ingestPDF_v0 embed_one "a b" true [mkChunk "old" "old" [1%Q]])) None) = 1.
Proof.
  assert (H : fst (ingestPDF_v0 embed_one "a b" true [mkChunk "old" "old" [1%Q]]) = Some 1)
    by (vm_compute; reflexivity).
  split; [exact H |].
  exact (ingestPDF_v0_overwrites embed_one "a b" true [mkChunk "old" "old" [1%Q]] 1 None H).
Defined.
